(** * Keybearer v2: the combinatorial key-wrapping engine

    A shallow embedding of [src/kb.js], [src/kb-noble.js], the legacy
    adapter [kb-legacy.js] and the two UI entry points of [kbpage-v2.js]
    that drive decryption, together with the properties of the
    specification that concern them. *)

From Stdlib Require Import ZArith NArith List Lia Bool Strings.Byte Strings.String.
From stdpp Require Import base list sorting.
Import ListNotations.

Set Default Proof Using "Type".

(** ** JavaScript values *)

(** A JS string is a sequence of UTF-16 code units. *)
Abbreviation jsstring := (list N).

(** ASCII literals, for the identifiers the source spells out. *)
Definition lit (s : string) : jsstring := map Byte.to_N (list_byte_of_string s).

(** The values a JSON field can hold, as far as [!x] and [x === c] can
    tell them apart.  Arrays and nested objects are one truthy [JObject];
    numbers are integers. *)
Inductive jsval :=
| JUndefined
| JNull
| JBool (b : bool)
| JNum (z : Z)
| JStr (s : jsstring)
| JObject.

(** ToBoolean *)
Definition truthy (x : jsval) : bool :=
  match x with
  | JUndefined | JNull => false
  | JBool b => b
  | JNum z => negb (z =? 0)%Z
  | JStr s => match s with [] => false | _ => true end
  | JObject => true
  end.

Definition jsstring_eqb (a b : jsstring) : bool := bool_decide (a = b).

(** [x === n] for a number literal [n], [x === 's'] for a string literal. *)
Definition strict_eq_num (x : jsval) (n : Z) : bool :=
  match x with JNum z => (z =? n)%Z | _ => false end.
Definition strict_eq_str (x : jsval) (s : jsstring) : bool :=
  match x with JStr t => jsstring_eqb t s | _ => false end.

(** Binary data: [null], a [Uint8Array], or an SJCL bitArray (a plain JS
    array of 32-bit words, the only one for which [Array.isArray] holds). *)
Inductive jsdata :=
| DNull
| U8 (b : list Byte.byte)
| Bits (w : list Z).

#[global] Instance byte_eq_dec : EqDecision byte.
Proof.
  intros x y. destruct (Byte.eqb x y) eqn:E.
  - left. apply Byte.byte_dec_bl, E.
  - right. intros ->. rewrite Byte.byte_dec_lb in E; [discriminate | reflexivity].
Defined.

Definition isArray (d : jsdata) : bool :=
  match d with Bits _ => true | _ => false end.

(** ** Strings: [normalizeString], comparison, sorting *)

Definition SPACE : N := 32%N.

(** The class [\s] of ECMAScript regular expressions. *)
Definition is_whitespace (c : N) : bool :=
  ((9 <=? c) && (c <=? 13) || (c =? 32) || (c =? 160) || (c =? 5760)
   || (8192 <=? c) && (c <=? 8202) || (c =? 8232) || (c =? 8233)
   || (c =? 8239) || (c =? 8287) || (c =? 12288) || (c =? 65279))%N.

(** [s.replace(/\s+/g, ' ')]: every maximal run of whitespace becomes one
    space.  [in_run] says that the previous code unit was whitespace. *)
Fixpoint collapse_runs (in_run : bool) (s : jsstring) : jsstring :=
  match s with
  | [] => []
  | c :: r =>
      if is_whitespace c
      then (if in_run then collapse_runs true r else SPACE :: collapse_runs true r)
      else c :: collapse_runs false r
  end.

Definition drop_leading_ws (s : jsstring) : jsstring :=
  match s with
  | c :: r => if is_whitespace c then r else s
  | [] => []
  end.

Definition drop_trailing_ws (s : jsstring) : jsstring :=
  match last s with
  | Some c => if is_whitespace c then removelast s else s
  | None => s
  end.

(** [s.replace(/(^\s|\s$)/g, '')]: without the [m] flag the first
    alternative can only match at index 0 and the second only at the last
    index; the matches do not overlap. *)
Definition strip_edges (s : jsstring) : jsstring :=
  drop_trailing_ws (drop_leading_ws s).

Definition normalizeString (s : jsstring) : jsstring :=
  strip_edges (collapse_runs false s).

(** The default comparison of [Array.prototype.sort]: code units,
    lexicographically. *)
Fixpoint str_leb (a b : jsstring) : bool :=
  match a, b with
  | [], _ => true
  | _ :: _, [] => false
  | x :: a', y :: b' =>
      if (x <? y)%N then true
      else if (x =? y)%N then str_leb a' b' else false
  end.

Definition str_le (a b : jsstring) : Prop := str_leb a b = true.

#[global] Instance str_le_dec : RelDecision str_le.
Proof. intros a b. unfold str_le. apply _. Defined.

(** [arr.sort()] on an array of strings.  The engine's algorithm is not
    fixed by the language, its result is: the order is total and
    antisymmetric, so there is one sorted arrangement. *)
Definition js_sort (l : list jsstring) : list jsstring := merge_sort str_le l.

(** ** Errors *)

Inductive exn :=
| TypeError        (* a property read or method call on null / undefined *)
| ReferenceError   (* the global [sjcl] is not defined *)
| LibraryError.    (* thrown from inside noble, sjcl, atob/btoa or JSON.parse *)

Inductive outcome (A : Type) :=
| Ok (a : A)
| Throw (e : exn)
| OutOfFuel.
Arguments Ok {A} a.
Arguments Throw {A} e.
Arguments OutOfFuel {A}.

Definition obind {A B} (x : outcome A) (f : A -> outcome B) : outcome B :=
  match x with
  | Ok a => f a
  | Throw e => Throw e
  | OutOfFuel => OutOfFuel
  end.

(** A [for] loop that threads an accumulator and stops at the first throw. *)
Definition ofold {A B} (f : B -> A -> outcome B) : list A -> B -> outcome B :=
  fix go (l : list A) (b : B) : outcome B :=
    match l with
    | [] => Ok b
    | a :: l' => obind (f b a) (go l')
    end.

(** ** The combinatorial engine *)

(** [[prefix, p].join(' ')]: [join] prints [null] and [undefined] as the
    empty string. *)
Definition join_pair (prefix : option jsstring) (p : option jsstring) : jsstring :=
  default [] prefix ++ SPACE :: default [] p.

(** [s.replace(/ /, '')]: the first space goes. *)
Fixpoint remove_first_space (s : jsstring) : jsstring :=
  match s with
  | [] => []
  | c :: r => if (c =? SPACE)%N then r else c :: remove_first_space r
  end.

(** The local function [combine] of [makeCombinedPasswords].  [output] is
    the array it pushes to.  [levels_left] decreases by one per call and is
    tested by [levels_left <= 0], so the recursion is on
    [Z.to_nat levels_left].  With [prefix] still [null] the base case calls
    [replace] on [null]. *)
Fixpoint combine (passwords output : list jsstring) (prefix : option jsstring)
    (levels_left : nat) (start : nat) : outcome (list jsstring) :=
  match levels_left with
  | O =>
      match prefix with
      | None => Throw TypeError
      | Some p => Ok (output ++ [remove_first_space p])
      end
  | S l =>
      ofold (fun out i =>
               combine passwords out (Some (join_pair prefix (passwords !! i))) l (S i))
            (seq start (length passwords - start)) output
  end.

(** ** Envelopes *)

(** One wrapped key, [{iv, key}]. *)
Module KeyIv.
Record t (D : Type) := Build { iv : D; key : D }.
Arguments Build {D} iv key.
Arguments iv {D} t.
Arguments key {D} t.
End KeyIv.

(** The envelope object.  [D] is the representation of the five binary
    fields: base64 text in the object that [JSON.stringify] receives and
    [JSON.parse] returns, [jsdata] in the working copy [_cipherobj].
    [nkeys] and [nunlock] are a number or [null]; [keys] is [None] while
    the property has not been assigned. *)
Module Envelope.
Record t (D : Type) := Build {
  v : jsval;
  mode : jsval;
  cipher : jsval;
  ts : jsval;
  ks : jsval;
  iter : Z;
  adata : jsval;
  fn : option jsstring;
  ft : option jsstring;
  nkeys : option Z;
  nunlock : option Z;
  salt : D;
  iv : D;
  ct : D;
  keys : option (list (KeyIv.t D))
}.
Arguments Build {D}.
Arguments v {D} t.
Arguments mode {D} t.
Arguments cipher {D} t.
Arguments ts {D} t.
Arguments ks {D} t.
Arguments iter {D} t.
Arguments adata {D} t.
Arguments fn {D} t.
Arguments ft {D} t.
Arguments nkeys {D} t.
Arguments nunlock {D} t.
Arguments salt {D} t.
Arguments iv {D} t.
Arguments ct {D} t.
Arguments keys {D} t.

Definition set_ct_iv {D} (c i : D) (e : t D) : t D :=
  Build (v e) (mode e) (cipher e) (ts e) (ks e) (iter e) (adata e) (fn e) (ft e)
        (nkeys e) (nunlock e) (salt e) i c (keys e).

Definition set_keys {D} (k : list (KeyIv.t D)) (e : t D) : t D :=
  Build (v e) (mode e) (cipher e) (ts e) (ks e) (iter e) (adata e) (fn e) (ft e)
        (nkeys e) (nunlock e) (salt e) (iv e) (ct e) (Some k).
End Envelope.

Abbreviation cipherobj := (Envelope.t jsdata).
Abbreviation wire := (Envelope.t jsstring).

(** ** The legacy adapter: format detection *)

Definition CCM : jsstring := Eval cbv in lit "ccm".
Definition OCB2 : jsstring := Eval cbv in lit "ocb2".
Definition CHACHA20 : jsstring := Eval cbv in lit "chacha20".
Definition CHACHA20POLY1305 : jsstring :=
  Eval cbv in lit "chacha20poly1305".

(** [isLegacyFormat] of kb-legacy.js *)
Definition isLegacyFormat {D} (cipherobj : Envelope.t D) : bool :=
  negb (truthy (Envelope.v cipherobj))
  || strict_eq_num (Envelope.v cipherobj) 1
  || strict_eq_str (Envelope.mode cipherobj) CCM
  || strict_eq_str (Envelope.mode cipherobj) OCB2.

(** ** The platform: entropy, the crypto libraries, base64, JSON *)

(** What the engine calls but does not define.  A primitive returns [None]
    where the library would throw.  The serialized envelope is opaque to
    the engine: it is produced by [JSON.stringify] and consumed by
    [JSON.parse] only. *)
Record Platform := {
  (** the bytes [crypto.getRandomValues] hands out, in order *)
  entropy : nat -> byte;
  (** [typeof sjcl !== 'undefined'] *)
  sjcl_defined : bool;
  (** @noble/hashes: [pbkdf2(sha256, utf8(password), salt, {c, dkLen})] *)
  pbkdf2_sha256 : jsstring -> jsdata -> Z -> Z -> option (list byte);
  (** @noble/ciphers: [chacha20poly1305(key, nonce, aad).encrypt(plaintext)] *)
  chacha20poly1305_encrypt : jsdata -> jsdata -> jsdata -> jsdata -> option (list byte);
  (** [chacha20poly1305(key, nonce, aad).decrypt(ciphertext)] *)
  chacha20poly1305_decrypt : jsdata -> jsdata -> jsdata -> jsdata -> option (list byte);
  (** [sjcl.misc.pbkdf2(password, salt, iterations, keyBits)] *)
  sjcl_pbkdf2 : jsstring -> jsdata -> Z -> Z -> option (list Z);
  (** [sjcl.mode[mode].decrypt(new sjcl.cipher[cipher](key), ct, iv, adata, ts)] *)
  sjcl_mode_decrypt : jsval -> jsval -> jsdata -> jsdata -> jsdata -> jsval -> jsval -> option (list Z);
  (** [sjcl.codec.base64.toBits] *)
  sjcl_base64_toBits : jsstring -> option (list Z);
  (** [sjcl.bitArray.bitLength] *)
  sjcl_bitLength : list Z -> Z;
  btoa : jsstring -> option jsstring;
  atob : jsstring -> option jsstring;
  json_text : Type;
  JSON_stringify : wire -> json_text;
  JSON_parse : json_text -> option wire
}.

(** ** The engine's state *)

(** The fields of the global [keybearer] object that the modelled
    operations touch.  The public settings other than [pbkdf2_iterations]
    are never assigned and appear as constants. *)
Record keybearer := {
  pbkdf2_iterations : Z;
  _salt : jsdata;
  _plaintext : jsdata;
  _cipherobj : option cipherobj;
  _keys : list jsdata;
  _master : jsdata;
  _filename : option jsstring;
  _filetype : option jsstring;
  _nPasswords : option Z;
  _nToUnlock : option Z
}.

Definition salt_length : nat := 16.
Definition aes_key_strength : nat := 32.
Definition aes_cipher_mode : jsstring := CHACHA20POLY1305.

(** The object as the module creates it. *)
Definition initial : keybearer :=
  {| pbkdf2_iterations := 50000; _salt := DNull; _plaintext := DNull;
     _cipherobj := None; _keys := []; _master := DNull; _filename := None;
     _filetype := None; _nPasswords := None; _nToUnlock := None |}.

Definition set_pbkdf2_iterations (x : Z) (k : keybearer) : keybearer :=
  {| pbkdf2_iterations := x; _salt := _salt k; _plaintext := _plaintext k;
     _cipherobj := _cipherobj k; _keys := _keys k; _master := _master k;
     _filename := _filename k; _filetype := _filetype k;
     _nPasswords := _nPasswords k; _nToUnlock := _nToUnlock k |}.
Definition set_salt (x : jsdata) (k : keybearer) : keybearer :=
  {| pbkdf2_iterations := pbkdf2_iterations k; _salt := x; _plaintext := _plaintext k;
     _cipherobj := _cipherobj k; _keys := _keys k; _master := _master k;
     _filename := _filename k; _filetype := _filetype k;
     _nPasswords := _nPasswords k; _nToUnlock := _nToUnlock k |}.
Definition set_plaintext (x : jsdata) (k : keybearer) : keybearer :=
  {| pbkdf2_iterations := pbkdf2_iterations k; _salt := _salt k; _plaintext := x;
     _cipherobj := _cipherobj k; _keys := _keys k; _master := _master k;
     _filename := _filename k; _filetype := _filetype k;
     _nPasswords := _nPasswords k; _nToUnlock := _nToUnlock k |}.
Definition set_cipherobj (x : option cipherobj) (k : keybearer) : keybearer :=
  {| pbkdf2_iterations := pbkdf2_iterations k; _salt := _salt k; _plaintext := _plaintext k;
     _cipherobj := x; _keys := _keys k; _master := _master k;
     _filename := _filename k; _filetype := _filetype k;
     _nPasswords := _nPasswords k; _nToUnlock := _nToUnlock k |}.
Definition set_keys (x : list jsdata) (k : keybearer) : keybearer :=
  {| pbkdf2_iterations := pbkdf2_iterations k; _salt := _salt k; _plaintext := _plaintext k;
     _cipherobj := _cipherobj k; _keys := x; _master := _master k;
     _filename := _filename k; _filetype := _filetype k;
     _nPasswords := _nPasswords k; _nToUnlock := _nToUnlock k |}.
Definition set_master (x : jsdata) (k : keybearer) : keybearer :=
  {| pbkdf2_iterations := pbkdf2_iterations k; _salt := _salt k; _plaintext := _plaintext k;
     _cipherobj := _cipherobj k; _keys := _keys k; _master := x;
     _filename := _filename k; _filetype := _filetype k;
     _nPasswords := _nPasswords k; _nToUnlock := _nToUnlock k |}.
Definition set_filename (x : option jsstring) (k : keybearer) : keybearer :=
  {| pbkdf2_iterations := pbkdf2_iterations k; _salt := _salt k; _plaintext := _plaintext k;
     _cipherobj := _cipherobj k; _keys := _keys k; _master := _master k;
     _filename := x; _filetype := _filetype k;
     _nPasswords := _nPasswords k; _nToUnlock := _nToUnlock k |}.
Definition set_filetype (x : option jsstring) (k : keybearer) : keybearer :=
  {| pbkdf2_iterations := pbkdf2_iterations k; _salt := _salt k; _plaintext := _plaintext k;
     _cipherobj := _cipherobj k; _keys := _keys k; _master := _master k;
     _filename := _filename k; _filetype := x;
     _nPasswords := _nPasswords k; _nToUnlock := _nToUnlock k |}.
Definition set_nPasswords (x : option Z) (k : keybearer) : keybearer :=
  {| pbkdf2_iterations := pbkdf2_iterations k; _salt := _salt k; _plaintext := _plaintext k;
     _cipherobj := _cipherobj k; _keys := _keys k; _master := _master k;
     _filename := _filename k; _filetype := _filetype k;
     _nPasswords := x; _nToUnlock := _nToUnlock k |}.
Definition set_nToUnlock (x : option Z) (k : keybearer) : keybearer :=
  {| pbkdf2_iterations := pbkdf2_iterations k; _salt := _salt k; _plaintext := _plaintext k;
     _cipherobj := _cipherobj k; _keys := _keys k; _master := _master k;
     _filename := _filename k; _filetype := _filetype k;
     _nPasswords := _nPasswords k; _nToUnlock := x |}.

(** The messages of [alert]. *)
Inductive alert :=
| AtLeastPasscodes (m : option Z)  (* 'You must enter at least m passcodes ...' *)
| LoadFileFirst                    (* 'You must load a file before decrypting it!' *)
| CouldNotDecode                   (* 'Could not decode key, check the passcodes' *)
| ErrorDecrypting (e : exn).       (* 'Error decrypting keybearer file: ...' *)

(** Calls that leave the engine, in the order they happen.  The trace is
    ghost state: nothing reads it. *)
Inductive event :=
| EvRandom (count : nat)                      (* crypto.getRandomValues *)
| EvDerive (password : jsstring)              (* a PBKDF2 run, noble or sjcl *)
| EvSeal (key plaintext nonce : jsdata)       (* an AEAD encryption *)
| EvOpen (key ciphertext nonce : jsdata)      (* an AEAD decryption attempt *)
| EvAlert (a : alert).

Definition is_crypto (e : event) : bool :=
  match e with EvAlert _ => false | _ => true end.

Record world := {
  kb : keybearer;
  rng_pos : nat;          (* how many bytes of [entropy] have been handed out *)
  trace : list event
}.

Definition M (A : Type) : Type := world -> outcome A * world.

Definition ret {A} (a : A) : M A := fun w => (Ok a, w).
Definition throw {A} (e : exn) : M A := fun w => (Throw e, w).
Definition out_of_fuel {A} : M A := fun w => (OutOfFuel, w).
Definition bind {A B} (m : M A) (f : A -> M B) : M B :=
  fun w =>
    match m w with
    | (Ok a, w') => f a w'
    | (Throw e, w') => (Throw e, w')
    | (OutOfFuel, w') => (OutOfFuel, w')
    end.

Notation "'let*' x ':=' m 'in' f" := (bind m (fun x => f))
  (at level 10, x name, m at level 200, f at level 200, only parsing).

(** [try { m } catch (err) { h err }] *)
Definition try_catch {A} (m : M A) (h : exn -> M A) : M A :=
  fun w =>
    match m w with
    | (Throw e, w') => h e w'
    | r => r
    end.

Definition lift {A} (o : outcome A) : M A := fun w => (o, w).
Definition lift_lib {A} (o : option A) : M A :=
  match o with Some a => ret a | None => throw LibraryError end.

Definition get : M keybearer := fun w => (Ok (kb w), w).
Definition modify (f : keybearer -> keybearer) : M unit :=
  fun w => (Ok tt, {| kb := f (kb w); rng_pos := rng_pos w; trace := trace w |}).
Definition emit (e : event) : M unit :=
  fun w => (Ok tt, {| kb := kb w; rng_pos := rng_pos w; trace := trace w ++ [e] |}).

(** [for (x of l) body(x)] *)
Definition for_each {A} (body : A -> M unit) : list A -> M unit :=
  fix go (l : list A) : M unit :=
    match l with
    | [] => ret tt
    | a :: l' => let* _ := body a in go l'
    end.

(** A loop that builds a local array. *)
Definition for_push {A B} (body : A -> M B) : list A -> list B -> M (list B) :=
  fix go (l : list A) (acc : list B) : M (list B) :=
    match l with
    | [] => ret acc
    | a :: l' => let* b := body a in go l' (acc ++ [b])
    end.

(** [!x] for binary data: a typed array or an array is an object. *)
Definition data_truthy (d : jsdata) : bool :=
  match d with DNull => false | _ => true end.

(** A [Uint32Array] view of four bytes (little-endian hosts). *)
Definition uint32_le (b : list byte) : Z :=
  fold_right (fun x acc => (Z.of_N (Byte.to_N x) + 256 * acc)%Z) 0%Z b.

(** The element a [Uint8Array] stores for a number. *)
Definition byte_of_N (n : N) : byte :=
  default x00 (Byte.of_N (n mod 256)).

(** [tempi = arr[i]; arr[i] = arr[j]; arr[j] = tempi], for indices inside
    the array (the shuffle never leaves it, see [shuffle_loop_in_range]). *)
Definition swap {A} (arr : list A) (i j : nat) : list A :=
  match arr !! i, arr !! j with
  | Some ai, Some aj => <[j := ai]> (<[i := aj]> arr)
  | _, _ => arr
  end.

(** [arr.slice(0, m)] *)
Definition slice0 {A} (arr : list A) (m : Z) : list A :=
  if (m <? 0)%Z then take (length arr - Z.to_nat (- m)) arr else take (Z.to_nat m) arr.

(** ToNumber of a number or [null] *)
Definition to_number (x : option Z) : Z := default 0%Z x.

Section Engine.
Context (P : Platform).

(** *** kb-noble.js *)

Definition getRandomBytes (count : nat) : M (list byte) :=
  fun w =>
    (Ok (map (entropy P) (seq (rng_pos w) count)),
     {| kb := kb w; rng_pos := rng_pos w + count;
        trace := trace w ++ [EvRandom count] |}).

Definition deriveKeyFromPassword (password : jsstring) (salt : jsdata)
    (iterations keyLength : Z) : M jsdata :=
  let* _ := emit (EvDerive password) in
  let* k := lift_lib (pbkdf2_sha256 P password salt iterations keyLength) in
  ret (U8 k).

(** returns [(ciphertext, nonce)] *)
Definition encryptChaCha20Poly1305 (key plaintext nonce aad : jsdata)
    : M (jsdata * jsdata) :=
  let* nonce :=
    (if data_truthy nonce then ret nonce
     else let* b := getRandomBytes 12 in ret (U8 b)) in
  let* _ := emit (EvSeal key plaintext nonce) in
  let* c := lift_lib (chacha20poly1305_encrypt P key nonce aad plaintext) in
  ret (U8 c, nonce).

Definition decryptChaCha20Poly1305 (key ciphertext nonce aad : jsdata) : M jsdata :=
  let* _ := emit (EvOpen key ciphertext nonce) in
  let* p := lift_lib (chacha20poly1305_decrypt P key nonce aad ciphertext) in
  ret (U8 p).

(** [String.fromCharCode] keeps the low 16 bits of a word. *)
Definition encodeBase64 (d : jsdata) : outcome jsstring :=
  match d with
  | DNull => Throw TypeError
  | U8 b =>
      match btoa P (map Byte.to_N b) with
      | Some s => Ok s | None => Throw LibraryError end
  | Bits w =>
      match btoa P (map (fun z => Z.to_N (z mod 65536)) w) with
      | Some s => Ok s | None => Throw LibraryError end
  end.

Definition decodeBase64 (base64str : jsstring) : outcome jsdata :=
  match atob P base64str with
  | Some binaryString => Ok (U8 (map byte_of_N binaryString))
  | None => Throw LibraryError
  end.

(** The inner [while (value >= maxValid)] of [randomIntegers]. *)
Fixpoint resample (fuel : nat) (maxValid value : Z) : M Z :=
  if (value >=? maxValid)%Z then
    match fuel with
    | O => out_of_fuel
    | S fuel' =>
        let* newBytes := getRandomBytes 4 in
        resample fuel' maxValid (uint32_le newBytes)
    end
  else ret value.

(** [max] is positive at every call site. *)
Definition randomIntegers (fuel : nat) (max : positive) (count : nat) : M (list Z) :=
  let* randomBytes := getRandomBytes (count * 4) in
  let maxValid := (4294967295 / Z.pos max * Z.pos max)%Z in
  for_push (fun i =>
              let* value :=
                resample fuel maxValid (uint32_le (take 4 (drop (4 * i) randomBytes))) in
              ret (Z.rem value (Z.pos max)))
           (seq 0 count) [].

(** *** kb.js *)

Definition randto (fuel : nat) (end_ : positive) (num : nat) : M (list Z) :=
  randomIntegers fuel end_ num.

Definition makeSalt : M unit :=
  let* b := getRandomBytes salt_length in
  modify (set_salt (U8 b)).

(** kb-legacy.js *)
Definition deriveKeyLegacy (password : jsstring) (salt : jsdata)
    (iterations keyBits : Z) : M jsdata :=
  let* _ := emit (EvDerive password) in
  let* k := lift_lib (sjcl_pbkdf2 P password salt iterations keyBits) in
  ret (Bits k).

Definition makeKeyFromPassword (password : jsstring) : M jsdata :=
  let* k := get in
  if sjcl_defined P && isArray (_salt k) then
    deriveKeyLegacy password (_salt k) (pbkdf2_iterations k)
                    (Z.of_nat aes_key_strength * 8)
  else
    deriveKeyFromPassword password (_salt k) (pbkdf2_iterations k)
                          (Z.of_nat aes_key_strength).

(** The array argument is normalized and sorted in place; no caller
    reads it again. *)
Definition makeCombinedPasswords (passwords : list jsstring)
    (nToUnlock : option Z) : M (list jsstring) :=
  let* _ := modify (set_nPasswords (Some (Z.of_nat (length passwords)))) in
  let* _ := modify (set_nToUnlock nToUnlock) in
  let passwords := js_sort (map normalizeString passwords) in
  lift (combine passwords [] None (Z.to_nat (to_number nToUnlock)) 0).

(** The progress callback is left out: it reports, it decides nothing. *)
Definition makeKeyCombinations (passwords : list jsstring)
    (nToUnlock : option Z) : M (list jsdata) :=
  let* _ := modify (set_keys []) in
  let* combinations := makeCombinedPasswords passwords nToUnlock in
  let* _ :=
    for_each (fun c =>
                let* key := makeKeyFromPassword c in
                modify (fun k => set_keys (_keys k ++ [key]) k))
             combinations in
  let* k := get in
  ret (_keys k).

Definition makeAESKey : M unit :=
  let* b := getRandomBytes aes_key_strength in
  modify (set_master (U8 b)).

Definition makeMetadataObject : M cipherobj :=
  let* nonce := getRandomBytes 12 in
  let* k := get in
  ret {| Envelope.adata := JStr [];
         Envelope.iter := pbkdf2_iterations k;
         Envelope.mode := JStr aes_cipher_mode;
         Envelope.cipher := JStr CHACHA20;
         Envelope.ts := JNum 128;
         Envelope.ks := JNum (Z.of_nat aes_key_strength * 8);
         Envelope.salt := _salt k;
         Envelope.iv := U8 nonce;
         Envelope.v := JNum 2;
         Envelope.ct := DNull;
         Envelope.fn := _filename k;
         Envelope.ft := _filetype k;
         Envelope.nkeys := _nPasswords k;
         Envelope.nunlock := _nToUnlock k;
         Envelope.keys := None |}.

(** [arr] is shuffled in place; the model returns it. *)
Fixpoint shuffle_loop {A} (fuel : nat) (i : nat) (arr : list A) : M (list A) :=
  match i with
  | O => ret arr
  | S i' =>
      let* r := randto fuel (Pos.of_succ_nat i) 1 in
      let j := Z.to_nat (hd 0%Z r) in
      shuffle_loop fuel i' (swap arr i j)
  end.

Definition shuffle {A} (fuel : nat) (arr : list A) : M (list A) :=
  shuffle_loop fuel (length arr - 1) arr.

(** The one caller passes [keybearer._cipherobj]; the assignment to
    [obj.keys] lands in that object. *)
Definition augmentWithEncryptedKeys (fuel : nat) : M unit :=
  let* k := get in
  let* encKeys :=
    for_push (fun key =>
                let* nonce := getRandomBytes 12 in
                let* k := get in
                let* result := encryptChaCha20Poly1305 key (_master k) (U8 nonce) (U8 []) in
                ret (KeyIv.Build (snd result) (fst result)))
             (_keys k) [] in
  match _cipherobj k with
  | None => throw TypeError
  | Some obj =>
      let* _ := modify (set_cipherobj (Some (Envelope.set_keys encKeys obj))) in
      let* shuffled := shuffle fuel encKeys in
      modify (set_cipherobj (Some (Envelope.set_keys shuffled obj)))
  end.

Definition encode_entry (e : KeyIv.t jsdata) : outcome (KeyIv.t jsstring) :=
  obind (encodeBase64 (KeyIv.iv e)) (fun i =>
  obind (encodeBase64 (KeyIv.key e)) (fun k =>
  Ok (KeyIv.Build i k))).

Definition getCipherJSON : M (json_text P) :=
  let* k := get in
  match _cipherobj k with
  | None => throw TypeError
  | Some c =>
      let* salt := lift (encodeBase64 (Envelope.salt c)) in
      let* iv := lift (encodeBase64 (Envelope.iv c)) in
      let* ct := lift (encodeBase64 (Envelope.ct c)) in
      match Envelope.keys c with
      | None => throw TypeError
      | Some ks =>
          let* keys := for_push (fun e => lift (encode_entry e)) ks [] in
          ret (JSON_stringify P
                 {| Envelope.v := Envelope.v c;
                    Envelope.mode := Envelope.mode c;
                    Envelope.cipher := Envelope.cipher c;
                    Envelope.ts := Envelope.ts c;
                    Envelope.ks := Envelope.ks c;
                    Envelope.iter := Envelope.iter c;
                    Envelope.adata := Envelope.adata c;
                    Envelope.fn := Envelope.fn c;
                    Envelope.ft := Envelope.ft c;
                    Envelope.nkeys := Envelope.nkeys c;
                    Envelope.nunlock := Envelope.nunlock c;
                    Envelope.salt := salt;
                    Envelope.iv := iv;
                    Envelope.ct := ct;
                    Envelope.keys := Some keys |})
      end
  end.

Definition encryptPlaintext (fuel : nat) (pt : jsdata) : M (json_text P) :=
  let* p := makeMetadataObject in
  let* k := get in
  let ptxt := if data_truthy pt then pt else _plaintext k in
  let* result := encryptChaCha20Poly1305 (_master k) ptxt (Envelope.iv p) (U8 []) in
  let p := Envelope.set_ct_iv (fst result) (snd result) p in
  let* _ := modify (set_cipherobj (Some p)) in
  let* _ := augmentWithEncryptedKeys fuel in
  getCipherJSON.

Definition encryptWithPasswords (fuel : nat) (passwords : list jsstring)
    (nUnlock : option Z) : M (json_text P) :=
  let* _ := makeKeyCombinations passwords nUnlock in
  let* _ := makeAESKey in
  let* k := get in
  encryptPlaintext fuel (_plaintext k).

Definition setPlaintext (data : list byte) (fn ft : option jsstring) : M bool :=
  let* _ := modify (set_plaintext (U8 data)) in
  let* _ := (match fn with Some (_ :: _) => modify (set_filename fn) | _ => ret tt end) in
  let* _ := (match ft with Some (_ :: _) => modify (set_filetype ft) | _ => ret tt end) in
  ret true.

Definition getPlaintext : M jsdata :=
  let* k := get in ret (_plaintext k).

(** *** kb-legacy.js *)

(** [bitArrayToBytes]: [i < bl / 8] holds for the first [ceil(bl/8)]
    indices; [tmp >>> 24] reads the top byte of the 32-bit word and
    [tmp <<= 8] keeps the low 32 bits (the sign does not reach the
    bytes read later).  A missing word is [undefined], which the
    shifts read as 0. *)
Fixpoint bitArrayToBytes_loop (bitArray : list Z) (n i : nat) (tmp : Z) : list byte :=
  match n with
  | O => []
  | S n' =>
      let tmp := if (i mod 4 =? 0)%nat then default 0%Z (bitArray !! (i / 4)%nat) else tmp in
      byte_of_N (Z.to_N (Z.shiftr (tmp mod 4294967296) 24))
        :: bitArrayToBytes_loop bitArray n' (S i) (Z.shiftl tmp 8 mod 4294967296)
  end.

Definition bitArrayToBytes (bitArray : list Z) : list byte :=
  let bl := sjcl_bitLength P bitArray in
  bitArrayToBytes_loop bitArray (Z.to_nat ((bl + 7) / 8)) 0 0%Z.

Definition decryptLegacy (cipherobj : cipherobj) (key : jsdata) : M jsdata :=
  if sjcl_defined P then
    let* _ := emit (EvOpen key (Envelope.ct cipherobj) (Envelope.iv cipherobj)) in
    let* plaintext :=
      lift_lib (sjcl_mode_decrypt P (Envelope.cipher cipherobj) (Envelope.mode cipherobj)
                  key (Envelope.ct cipherobj) (Envelope.iv cipherobj)
                  (Envelope.adata cipherobj) (Envelope.ts cipherobj)) in
    ret (U8 (bitArrayToBytes plaintext))
  else throw ReferenceError.

(** returns the master key, or [null] ([DNull]) when anything throws *)
Definition decryptKeyLegacy (cipherobj : cipherobj) (key : jsdata)
    (keyiv : KeyIv.t jsdata) : M jsdata :=
  try_catch
    (if sjcl_defined P then
       let* _ := emit (EvOpen key (KeyIv.key keyiv) (KeyIv.iv keyiv)) in
       let* master :=
         lift_lib (sjcl_mode_decrypt P (Envelope.cipher cipherobj) (Envelope.mode cipherobj)
                     key (KeyIv.key keyiv) (KeyIv.iv keyiv)
                     (Envelope.adata cipherobj) (Envelope.ts cipherobj)) in
       ret (Bits master)
     else throw ReferenceError)
    (fun _ => ret DNull).

(** *** kb.js, decryption *)

(** [keybearer._cipherobj.keys], read where the loops test
    [j < keybearer._cipherobj.keys.length] *)
Definition cipherobj_keys : M (cipherobj * list (KeyIv.t jsdata)) :=
  let* k := get in
  match _cipherobj k with
  | None => throw TypeError
  | Some c =>
      match Envelope.keys c with
      | None => throw TypeError
      | Some ks => ret (c, ks)
      end
  end.

(** The inner loop of [decryptKeys], from entry [j] on: the result is
    the flag [success]. *)
Fixpoint decryptKeys_inner (key : jsdata) (entries : list (KeyIv.t jsdata)) : M bool :=
  match entries with
  | [] => ret false
  | keyiv :: rest =>
      let* success :=
        try_catch
          (let* m := decryptChaCha20Poly1305 key (KeyIv.key keyiv) (KeyIv.iv keyiv) (U8 []) in
           let* _ := modify (set_master m) in
           ret true)
          (fun _ => ret false) in
      if success then ret true else decryptKeys_inner key rest
  end.

Fixpoint decryptKeys_outer (keys : list jsdata) : M bool :=
  match keys with
  | [] => ret false
  | key :: rest =>
      let* ck := cipherobj_keys in
      let* success := decryptKeys_inner key (snd ck) in
      if success then ret true else decryptKeys_outer rest
  end.

Fixpoint decryptKeysLegacy_inner (c : cipherobj) (key : jsdata)
    (entries : list (KeyIv.t jsdata)) : M bool :=
  match entries with
  | [] => ret false
  | keyiv :: rest =>
      let* master := decryptKeyLegacy c key keyiv in
      if data_truthy master then
        let* _ := modify (set_master master) in
        ret true
      else decryptKeysLegacy_inner c key rest
  end.

Fixpoint decryptKeysLegacy_outer (keys : list jsdata) : M bool :=
  match keys with
  | [] => ret false
  | key :: rest =>
      let* ck := cipherobj_keys in
      let* success := decryptKeysLegacy_inner (fst ck) key (snd ck) in
      if success then ret true else decryptKeysLegacy_outer rest
  end.

Definition decryptKeysLegacy : M bool :=
  let* k := get in
  decryptKeysLegacy_outer (_keys k).

(** [typeof sjcl !== 'undefined' && legacy.isLegacyFormat(keybearer._cipherobj)] *)
Definition legacy_dispatch : M bool :=
  if sjcl_defined P then
    let* k := get in
    match _cipherobj k with
    | None => throw TypeError
    | Some c => ret (isLegacyFormat c)
    end
  else ret false.

Definition decryptKeys : M bool :=
  let* is_legacy := legacy_dispatch in
  if is_legacy then decryptKeysLegacy
  else
    let* k := get in
    decryptKeys_outer (_keys k).

Definition decryptCiphertext : M unit :=
  let* is_legacy := legacy_dispatch in
  let* k := get in
  match _cipherobj k with
  | None => throw TypeError
  | Some c =>
      let* plaintext :=
        (if is_legacy then decryptLegacy c (_master k)
         else decryptChaCha20Poly1305 (_master k) (Envelope.ct c) (Envelope.iv c) (U8 [])) in
      modify (set_plaintext plaintext)
  end.

Definition setPBKDF2Iterations (num : Z) : M unit :=
  modify (set_pbkdf2_iterations num).

Definition toBits (s : jsstring) : M jsdata :=
  if sjcl_defined P then
    let* w := lift_lib (sjcl_base64_toBits P s) in ret (Bits w)
  else throw ReferenceError.

Definition setCipherJSON (data : json_text P) : M unit :=
  let* obj := lift_lib (JSON_parse P data) in
  let isLegacy := isLegacyFormat obj in
  let decode := if isLegacy then toBits else (fun s => lift (decodeBase64 s)) in
  let* salt := decode (Envelope.salt obj) in
  let* iv := decode (Envelope.iv obj) in
  let* ct := decode (Envelope.ct obj) in
  let* keys :=
    match Envelope.keys obj with
    | None => throw TypeError
    | Some ks =>
        for_push (fun e =>
                    let* i := decode (KeyIv.iv e) in
                    let* k := decode (KeyIv.key e) in
                    ret (KeyIv.Build i k))
                 ks []
    end in
  let obj' : cipherobj :=
    {| Envelope.v := Envelope.v obj;
       Envelope.mode := Envelope.mode obj;
       Envelope.cipher := Envelope.cipher obj;
       Envelope.ts := Envelope.ts obj;
       Envelope.ks := Envelope.ks obj;
       Envelope.iter := Envelope.iter obj;
       Envelope.adata := Envelope.adata obj;
       Envelope.fn := Envelope.fn obj;
       Envelope.ft := Envelope.ft obj;
       Envelope.nkeys := Envelope.nkeys obj;
       Envelope.nunlock := Envelope.nunlock obj;
       Envelope.salt := salt;
       Envelope.iv := iv;
       Envelope.ct := ct;
       Envelope.keys := Some keys |} in
  let* _ := modify (set_salt salt) in
  let* _ := modify (set_nPasswords (Envelope.nkeys obj)) in
  let* _ := modify (set_nToUnlock (Envelope.nunlock obj)) in
  let* _ := modify (set_filename (Envelope.fn obj)) in
  let* _ := modify (set_filetype (Envelope.ft obj)) in
  let* _ := setPBKDF2Iterations (Envelope.iter obj) in
  modify (set_cipherobj (Some obj')).

(** *** kbpage-v2.js: the decryption form *)

(** [fields] are the values of the inputs [#decpass0], [#decpass1], ...
    A missing input reads as [undefined], on which [normalizeString]
    throws.  Highlighting the labels changes the page only. *)
Definition getMDecPass (fuel : nat) (fields : list jsstring) (n m : option Z)
    : M (list jsstring) :=
  let* passwords :=
    for_push (fun i =>
                match fields !! i with
                | Some s => ret (normalizeString s)
                | None => throw TypeError
                end)
             (seq 0 (Z.to_nat (to_number n))) [] in
  let passwords := filter (fun s => (0 <? length s)%nat = true) passwords in
  if (Z.of_nat (length passwords) <? to_number m)%Z then
    let* _ := emit (EvAlert (AtLeastPasscodes m)) in
    ret passwords
  else
    let* passwords := shuffle fuel passwords in
    let passwords := slice0 passwords (to_number m) in
    ret (js_sort passwords).

(** [kbp.decrypt]: the result is the plaintext offered for download,
    or [None] when the handler returns early. *)
Definition page_decrypt (fuel : nat) (fields : list jsstring) : M (option jsdata) :=
  let* k := get in
  match _cipherobj k with
  | None =>
      let* _ := emit (EvAlert LoadFileFirst) in
      ret None
  | Some c =>
      try_catch
        (let n := Envelope.nkeys c in
         let m := _nToUnlock k in
         let* passwords := getMDecPass fuel fields n m in
         let* _ := makeKeyCombinations passwords m in
         let* gotKey := decryptKeys in
         if negb gotKey then
           let* _ := emit (EvAlert CouldNotDecode) in
           ret None
         else
           let* _ := decryptCiphertext in
           let* p := getPlaintext in
           ret (Some p))
        (fun err =>
           let* _ := emit (EvAlert (ErrorDecrypting err)) in
           throw err)
  end.
End Engine.

(** ** The two pipelines of test-e2e.mjs *)

(** The encryption steps of test-e2e.mjs. *)
Definition build_envelope (P : Platform) (fuel : nat) (plaintext : list byte)
    (fn ft : option jsstring) (passwords : list jsstring) (m : option Z)
    : M (json_text P) :=
  let* _ := makeSalt P in
  let* _ := setPlaintext plaintext fn ft in
  encryptWithPasswords P fuel passwords m.

(** Its decryption steps; [None] where the test gives up because
    [decryptKeys] returned false. *)
Definition open_envelope (P : Platform) (encrypted : json_text P)
    (passwords : list jsstring) (m : option Z) : M (option jsdata) :=
  let* _ := setCipherJSON P encrypted in
  let* _ := makeKeyCombinations P passwords m in
  let* gotKey := decryptKeys P in
  if gotKey then
    let* _ := decryptCiphertext P in
    let* p := getPlaintext in
    ret (Some p)
  else ret None.

(** ** Notions the statements use *)

(** [sub.join(' ')] *)
Definition join_space (sub : list jsstring) : jsstring :=
  match sub with
  | [] => []
  | p :: r => p ++ concat (map (cons SPACE) r)
  end.

(** The [k]-element subsequences of [l], those that take the earliest
    element first. *)
Fixpoint sublists_k {A} (k : nat) (l : list A) : list (list A) :=
  match k, l with
  | O, _ => [[]]
  | S _, [] => []
  | S k', x :: r => map (cons x) (sublists_k k' r) ++ sublists_k k r
  end.

(** The binomial coefficient C(n, k), by Pascal's rule. *)
Fixpoint choose (n k : nat) : nat :=
  match n, k with
  | _, O => 1
  | O, S _ => 0
  | S n', S k' => choose n' k' + choose n' k
  end.

(** The combinations the engine derives keys from. *)
Definition combinations (passwords : list jsstring) (m : nat) : list jsstring :=
  map join_space (sublists_k m (js_sort (map normalizeString passwords))).

(** The events of a trace that are calls into a crypto library. *)
Definition crypto_events (t : list event) : list event :=
  filter (fun e => is_crypto e = true) t.

Definition is_derive (e : event) : bool :=
  match e with EvDerive _ => true | _ => false end.
Definition is_open (e : event) : bool :=
  match e with EvOpen _ _ _ => true | _ => false end.

(** What the statements assume of the libraries: PBKDF2 and the AEAD
    accept well-formed arguments, a sealed box opens under its key, and
    a box never opens to something else than was sealed (the ideal AEAD:
    in the real one this fails with negligible probability); base64 and
    JSON text decode to what was encoded. *)
Record Laws (P : Platform) : Prop := {
  pbkdf2_accepts : forall password salt c,
    (0 < c)%Z ->
    exists k, pbkdf2_sha256 P password (U8 salt) c 32 = Some k /\ length k = 32;
  seal_accepts : forall key nonce plaintext,
    length key = 32 -> length nonce = 12 ->
    exists c, chacha20poly1305_encrypt P (U8 key) (U8 nonce) (U8 []) (U8 plaintext) = Some c;
  open_sealed : forall key nonce plaintext c,
    chacha20poly1305_encrypt P (U8 key) (U8 nonce) (U8 []) (U8 plaintext) = Some c ->
    chacha20poly1305_decrypt P (U8 key) (U8 nonce) (U8 []) (U8 c) = Some plaintext;
  open_binding : forall key key' nonce plaintext c p,
    chacha20poly1305_encrypt P (U8 key) (U8 nonce) (U8 []) (U8 plaintext) = Some c ->
    chacha20poly1305_decrypt P (U8 key') (U8 nonce) (U8 []) (U8 c) = Some p ->
    p = plaintext;
  atob_btoa : forall b : list byte,
    exists s, btoa P (map Byte.to_N b) = Some s /\ atob P s = Some (map Byte.to_N b);
  parse_stringify : forall w, JSON_parse P (JSON_stringify P w) = Some w
}.

(** Rejection sampling ends: from every position of the entropy stream,
    some later 32-bit draw falls below the bound of every admissible
    [max]. *)
Definition fair_entropy (P : Platform) : Prop :=
  forall (pos : nat) (max : positive),
    (Z.pos max <= 4294967295)%Z ->
    exists k, (uint32_le (map (entropy P) (seq (pos + 4 * k) 4))
               < 4294967295 / Z.pos max * Z.pos max)%Z.

(** Runs to a result whatever the fuel, once there is enough of it. *)
Definition converges {A} (m : nat -> M A) (w : world) (a : A) (w' : world) : Prop :=
  exists fuel0, forall fuel, fuel0 <= fuel -> m fuel w = (Ok a, w').

(** ** Statements about runs *)

(** The outcome and the final world of a run satisfy [R]. *)
Definition sat {A} (m : M A) (w : world) (R : outcome A -> world -> Prop) : Prop :=
  R (fst (m w)) (snd (m w)).

(** The run returns, and its result satisfies [Q]. *)
Definition returns {A} (m : M A) (w : world) (Q : A -> world -> Prop) : Prop :=
  sat m w (fun o w' => match o with Ok a => Q a w' | _ => False end).

(** If the run returns, its result satisfies [Q]. *)
Definition ensures {A} (m : M A) (w : world) (Q : A -> world -> Prop) : Prop :=
  sat m w (fun o w' => match o with Ok a => Q a w' | _ => True end).

(** With enough fuel the run returns one result, which satisfies [Q]. *)
Definition returns_fuel {A} (m : nat -> M A) (w : world) (Q : A -> world -> Prop) : Prop :=
  exists a w', converges m w a w' /\ Q a w'.

(** The run leaves the [keybearer] object alone. *)
Definition kb_stable {A} (m : M A) : Prop := forall w, kb (snd (m w)) = kb w.

(** The run adds [evs] to the trace. *)
Definition extends (w w' : world) (evs : list event) : Prop :=
  trace w' = trace w ++ evs.

(** A password that [normalizeString] leaves as it is. *)
Definition normalized (p : jsstring) : Prop := normalizeString p = p.

(** The attempt of [decryptKeys] on one wrapped key, current format. *)
Definition open_v2 (P : Platform) (key : jsdata) (e : KeyIv.t jsdata) : option jsdata :=
  U8 <$> chacha20poly1305_decrypt P key (KeyIv.iv e) (U8 []) (KeyIv.key e).

(** The attempt of [decryptKeysLegacy] on one wrapped key. *)
Definition open_legacy (P : Platform) (c : cipherobj) (key : jsdata)
    (e : KeyIv.t jsdata) : option jsdata :=
  if sjcl_defined P then
    Bits <$> sjcl_mode_decrypt P (Envelope.cipher c) (Envelope.mode c) key
               (KeyIv.key e) (KeyIv.iv e) (Envelope.adata c) (Envelope.ts c)
  else None.

(** Which of the two [decryptKeys] runs. *)
Definition uses_legacy (P : Platform) (c : cipherobj) : bool :=
  sjcl_defined P && isLegacyFormat c.

Definition open_with (P : Platform) (c : cipherobj) (t : jsdata * KeyIv.t jsdata)
    : option jsdata :=
  if uses_legacy P c then open_legacy P c (fst t) (snd t) else open_v2 P (fst t) (snd t).

Definition open_event (t : jsdata * KeyIv.t jsdata) : event :=
  EvOpen (fst t) (KeyIv.key (snd t)) (KeyIv.iv (snd t)).

(** The pairs the two nested loops visit, in their order: key by key,
    and for each key entry by entry. *)
Definition trials (keys : list jsdata) (entries : list (KeyIv.t jsdata))
    : list (jsdata * KeyIv.t jsdata) :=
  flat_map (fun k => map (pair k) entries) keys.

(** What the specification says of [isLegacyFormat]. *)
Definition legacy_as_specified {D} (c : Envelope.t D) : Prop :=
  Envelope.v c = JUndefined \/ Envelope.v c = JNum 1
  \/ Envelope.mode c = JStr CCM \/ Envelope.mode c = JStr OCB2.

(** An engine that has a salt and a plaintext, and a usable iteration
    count: what [makeSalt], [setPlaintext] leave behind. *)
Definition ready (k : keybearer) (salt plaintext : list byte) : Prop :=
  _salt k = U8 salt /\ _plaintext k = U8 plaintext /\ (0 < pbkdf2_iterations k)%Z.

(** ** Notions the proofs use *)

(** What [combine] pushes: one string per subsequence of the passwords
    from [start] on, in enumeration order. *)
Definition spaced (sub : list jsstring) : jsstring := concat (map (cons SPACE) sub).

(** The envelope [{v: 0, mode: 'chacha20poly1305'}] has a version field,
    which is not 1, and a current mode, and [isLegacyFormat] says legacy. *)
Definition version_zero : wire :=
  {| Envelope.v := JNum 0; Envelope.mode := JStr CHACHA20POLY1305;
     Envelope.cipher := JStr CHACHA20; Envelope.ts := JNum 128;
     Envelope.ks := JNum 256; Envelope.iter := 50000; Envelope.adata := JStr [];
     Envelope.fn := None; Envelope.ft := None;
     Envelope.nkeys := Some 3%Z; Envelope.nunlock := Some 2%Z;
     Envelope.salt := []; Envelope.iv := []; Envelope.ct := [];
     Envelope.keys := Some [] |}.

(** The key [makeKeyFromPassword] derives in engine state [k]. *)
Definition derive (P : Platform) (k : keybearer) (c : jsstring) : option jsdata :=
  if sjcl_defined P && isArray (_salt k) then
    Bits <$> sjcl_pbkdf2 P c (_salt k) (pbkdf2_iterations k)
                         (Z.of_nat aes_key_strength * 8)
  else
    U8 <$> pbkdf2_sha256 P c (_salt k) (pbkdf2_iterations k)
                         (Z.of_nat aes_key_strength).

Definition push_key (P : Platform) (c : jsstring) : M unit :=
  let* key := makeKeyFromPassword P c in
  modify (fun k => set_keys (_keys k ++ [key]) k).

Definition transpose (i j x : nat) : nat :=
  if decide (x = i) then j else if decide (x = j) then i else x.

(** A loop of pure steps. *)
Definition ofor_push {A B} (f : A -> outcome B) : list A -> list B -> outcome (list B) :=
  fix go (l : list A) (acc : list B) : outcome (list B) :=
    match l with
    | [] => Ok acc
    | a :: l' => obind (f a) (fun b => go l' (acc ++ [b]))
    end.

(** What [getCipherJSON] hands to [JSON.stringify]. *)
Definition encode_wire (P : Platform) (c : cipherobj) : outcome wire :=
  obind (encodeBase64 P (Envelope.salt c)) (fun salt =>
  obind (encodeBase64 P (Envelope.iv c)) (fun iv =>
  obind (encodeBase64 P (Envelope.ct c)) (fun ct =>
  match Envelope.keys c with
  | None => Throw TypeError
  | Some ks =>
      obind (ofor_push (encode_entry P) ks []) (fun keys =>
      Ok {| Envelope.v := Envelope.v c;
            Envelope.mode := Envelope.mode c;
            Envelope.cipher := Envelope.cipher c;
            Envelope.ts := Envelope.ts c;
            Envelope.ks := Envelope.ks c;
            Envelope.iter := Envelope.iter c;
            Envelope.adata := Envelope.adata c;
            Envelope.fn := Envelope.fn c;
            Envelope.ft := Envelope.ft c;
            Envelope.nkeys := Envelope.nkeys c;
            Envelope.nunlock := Envelope.nunlock c;
            Envelope.salt := salt;
            Envelope.iv := iv;
            Envelope.ct := ct;
            Envelope.keys := Some keys |})
  end))).

(** What [setCipherJSON] makes of a parsed envelope of the current
    format. *)
Definition decode_entry (P : Platform) (e : KeyIv.t jsstring)
    : outcome (KeyIv.t jsdata) :=
  obind (decodeBase64 P (KeyIv.iv e)) (fun i =>
  obind (decodeBase64 P (KeyIv.key e)) (fun k =>
  Ok (KeyIv.Build i k))).

Definition decode_wire (P : Platform) (obj : wire) : outcome cipherobj :=
  obind (decodeBase64 P (Envelope.salt obj)) (fun salt =>
  obind (decodeBase64 P (Envelope.iv obj)) (fun iv =>
  obind (decodeBase64 P (Envelope.ct obj)) (fun ct =>
  match Envelope.keys obj with
  | None => Throw TypeError
  | Some ks =>
      obind (ofor_push (decode_entry P) ks []) (fun keys =>
      Ok {| Envelope.v := Envelope.v obj;
            Envelope.mode := Envelope.mode obj;
            Envelope.cipher := Envelope.cipher obj;
            Envelope.ts := Envelope.ts obj;
            Envelope.ks := Envelope.ks obj;
            Envelope.iter := Envelope.iter obj;
            Envelope.adata := Envelope.adata obj;
            Envelope.fn := Envelope.fn obj;
            Envelope.ft := Envelope.ft obj;
            Envelope.nkeys := Envelope.nkeys obj;
            Envelope.nunlock := Envelope.nunlock obj;
            Envelope.salt := salt;
            Envelope.iv := iv;
            Envelope.ct := ct;
            Envelope.keys := Some keys |})
  end))).

(** The fields [setCipherJSON] assigns. *)
Definition load (c : cipherobj) (k : keybearer) : keybearer :=
  set_cipherobj (Some c)
    (set_pbkdf2_iterations (Envelope.iter c)
       (set_filetype (Envelope.ft c)
          (set_filename (Envelope.fn c)
             (set_nToUnlock (Envelope.nunlock c)
                (set_nPasswords (Envelope.nkeys c)
                   (set_salt (Envelope.salt c) k)))))).

Definition is_u8 (d : jsdata) : Prop := exists b, d = U8 b.

Definition entry_is_u8 (e : KeyIv.t jsdata) : Prop :=
  is_u8 (KeyIv.iv e) /\ is_u8 (KeyIv.key e).

(** An envelope whose binary fields are all byte arrays. *)
Definition bytes_envelope (c : cipherobj) : Prop :=
  is_u8 (Envelope.salt c) /\ is_u8 (Envelope.iv c) /\ is_u8 (Envelope.ct c)
  /\ exists ks, Envelope.keys c = Some ks /\ Forall entry_is_u8 ks.

(** [e] is the master key sealed under [key] with the nonce it records. *)
Definition wraps (P : Platform) (master : list byte) (key : jsdata)
    (e : KeyIv.t jsdata) : Prop :=
  exists k n c,
    key = U8 k /\ e = KeyIv.Build (U8 n) (U8 c)
    /\ chacha20poly1305_encrypt P (U8 k) (U8 n) (U8 []) (U8 master) = Some c.

(** A 256-bit key held in a byte array. *)
Definition key32 (d : jsdata) : Prop := exists b, d = U8 b /\ length b = 32.

(** What [makeMetadataObject] returns in state [k] with nonce [nonce]. *)
Definition metadata (k : keybearer) (nonce : list byte) : cipherobj :=
  {| Envelope.adata := JStr [];
     Envelope.iter := pbkdf2_iterations k;
     Envelope.mode := JStr aes_cipher_mode;
     Envelope.cipher := JStr CHACHA20;
     Envelope.ts := JNum 128;
     Envelope.ks := JNum (Z.of_nat aes_key_strength * 8);
     Envelope.salt := _salt k;
     Envelope.iv := U8 nonce;
     Envelope.v := JNum 2;
     Envelope.ct := DNull;
     Envelope.fn := _filename k;
     Envelope.ft := _filetype k;
     Envelope.nkeys := _nPasswords k;
     Envelope.nunlock := _nToUnlock k;
     Envelope.keys := None |}.

(** The envelope that seals [pt] and wraps its master key under [keys],
    built in state [k0]. *)
Definition sealed_for (P : Platform) (k0 : keybearer) (keys : list jsdata)
    (pt : list byte) (c : cipherobj) : Prop :=
  exists master nonce ct entries wrapped,
    c = Envelope.set_keys entries
          (Envelope.set_ct_iv (U8 ct) (U8 nonce) (metadata k0 nonce))
    /\ length master = 32
    /\ chacha20poly1305_encrypt P (U8 master) (U8 nonce) (U8 []) (U8 pt) = Some ct
    /\ Permutation entries wrapped
    /\ Forall2 (wraps P master) keys wrapped.

(** One turn of the loop of [augmentWithEncryptedKeys]. *)
Definition wrap_key (P : Platform) (key : jsdata) : M (KeyIv.t jsdata) :=
  let* nonce := getRandomBytes P 12 in
  let* k := get in
  let* result := encryptChaCha20Poly1305 P key (_master k) (U8 nonce) (U8 []) in
  ret (KeyIv.Build (snd result) (fst result)).

(** The state in which [encryptWithPasswords] builds the envelope. *)
Definition keyed (k : keybearer) (passwords : list jsstring) (z : Z)
    (keys : list jsdata) (master : list byte) : keybearer :=
  set_master (U8 master)
    (set_keys keys
       (set_nToUnlock (Some z)
          (set_nPasswords (Some (Z.of_nat (length passwords))) k))).

(** A scan of the trials in order, up to the first that opens: the
    trials attempted, and the master key if one opened. *)
Fixpoint scan {T} (f : T -> option jsdata) (ts : list T) : list T * option jsdata :=
  match ts with
  | [] => ([], None)
  | t :: r =>
      match f t with
      | Some m => ([t], Some m)
      | None => let (tried, res) := scan f r in (t :: tried, res)
      end
  end.

Definition with_master (res : option jsdata) (k : keybearer) : keybearer :=
  match res with Some m => set_master m k | None => k end.

Definition found (res : option jsdata) : bool :=
  match res with Some _ => true | None => false end.

(** The non-blank passwords that [getMDecPass] collects from the first
    [n] inputs. *)
Definition entered (fields : list jsstring) (n : option Z) : list jsstring :=
  filter (fun s => (0 <? length s)%nat = true)
         (map normalizeString (take (Z.to_nat (to_number n)) fields)).

(** ** Notions for the further properties *)

(** Every whitespace code unit of [s] is a space that does not follow
    another whitespace code unit; [prev_ws] says the code unit before
    [s] was whitespace. *)
Fixpoint single_spaced (prev_ws : bool) (s : jsstring) : bool :=
  match s with
  | [] => true
  | c :: r =>
      if is_whitespace c
      then (c =? SPACE)%N && negb prev_ws && single_spaced true r
      else single_spaced false r
  end.

(** [s] neither starts nor ends with whitespace. *)
Definition edges_clean (s : jsstring) : Prop :=
  match s with c :: _ => is_whitespace c = false | [] => True end
  /\ match last s with Some c => is_whitespace c = false | None => True end.

(** The code units of [s] that are not whitespace, in order. *)
Definition ink (s : jsstring) : jsstring :=
  filter (fun c => is_whitespace c = false) s.

(** ** A reference platform

    An idealized instance of the libraries, on which the statements can
    be run: the AEAD box is the key followed by the content, PBKDF2 pads
    the password to the key length, base64 and JSON are the identity. *)
Module Ref.
Definition is_len {A} (n : nat) (l : list A) : bool := (length l =? n)%nat.

Definition pbkdf2 (password : jsstring) (salt : jsdata) (c dkLen : Z)
    : option (list byte) :=
  match salt with
  | U8 _ =>
      if (0 <? c)%Z then
        Some (take (Z.to_nat dkLen)
                   (map byte_of_N password ++ repeat x00 (Z.to_nat dkLen)))
      else None
  | _ => None
  end.

Definition seal (key nonce aad plaintext : jsdata) : option (list byte) :=
  match key, nonce, aad, plaintext with
  | U8 k, U8 n, U8 _, U8 p =>
      if is_len 32 k && is_len 12 n then Some (k ++ p) else None
  | _, _, _, _ => None
  end.

Definition open (key nonce aad ciphertext : jsdata) : option (list byte) :=
  match key, nonce, aad, ciphertext with
  | U8 k, U8 n, U8 _, U8 c =>
      if is_len 32 k && is_len 12 n && bool_decide (take 32 c = k)
      then Some (drop 32 c) else None
  | _, _, _, _ => None
  end.

Definition platform (sjcl : bool) : Platform :=
  {| entropy := fun _ => x00;
     sjcl_defined := sjcl;
     pbkdf2_sha256 := pbkdf2;
     chacha20poly1305_encrypt := seal;
     chacha20poly1305_decrypt := open;
     sjcl_pbkdf2 := fun _ _ _ _ => None;
     sjcl_mode_decrypt := fun _ _ _ _ _ _ _ => None;
     sjcl_base64_toBits := fun _ => None;
     sjcl_bitLength := fun w => (32 * Z.of_nat (length w))%Z;
     btoa := fun s => Some s;
     atob := fun s => Some s;
     json_text := wire;
     JSON_stringify := fun w => w;
     JSON_parse := fun t => Some t |}.

Definition start : world := {| kb := initial; rng_pos := 0; trace := [] |}.

Definition alpha : jsstring := Eval cbv in lit "alpha".
Definition beta : jsstring := Eval cbv in lit "beta".
Definition gamma : jsstring := Eval cbv in lit "gamma".
Definition hello : list byte := Eval cbv in list_byte_of_string "Hello, Keybearer v2!".

(** The run of test-e2e.mjs on the reference platform without SJCL. *)
Definition P : Platform := platform false.

Definition delta : jsstring := Eval cbv in lit "delta".

Definition built : outcome wire * world :=
  Eval vm_compute in
    build_envelope P 0 hello None None [alpha; beta; gamma] (Some 2%Z) start.

Definition envelope : wire :=
  Eval vm_compute in
    match fst built with Ok e => e | _ => version_zero end.

(** The engine after it has loaded [envelope] and derived the key of the
    given passwords. *)
Definition keyed_with (passwords : list jsstring) : world :=
  snd ((let* _ := setCipherJSON P envelope in
        makeKeyCombinations P passwords (Some 2%Z)) start).

Definition right_keys : world := Eval vm_compute in keyed_with [beta; alpha].
Definition wrong_keys : world := Eval vm_compute in keyed_with [gamma; delta].

Definition loaded : cipherobj :=
  Eval vm_compute in
    match _cipherobj (kb right_keys) with
    | Some c => c
    | None => metadata initial []
    end.

Definition loaded_entries : list (KeyIv.t jsdata) :=
  Eval vm_compute in default [] (Envelope.keys loaded).

(** An engine with salt and plaintext, before encryption. *)
Definition prepared : world :=
  Eval vm_compute in
    snd ((let* _ := makeSalt P in setPlaintext hello None None) start).

(** The decryption form of the page, with one password entered. *)
Definition form_one : list jsstring := [gamma; []; []].
End Ref.

(** * Properties *)

(** ** The order on strings and the sort *)

Lemma str_leb_refl a : str_leb a a = true.
Proof.
  induction a as [|x a IH]; simpl; [reflexivity|].
  rewrite N.ltb_irrefl, N.eqb_refl. exact IH.
Qed.

Lemma str_leb_total a b : str_leb a b = true \/ str_leb b a = true.
Proof.
  revert b. induction a as [|x a IH]; intros [|y b]; simpl; auto.
  destruct (N.ltb_spec x y), (N.ltb_spec y x); auto; try lia.
  assert (x = y) as -> by lia. rewrite N.eqb_refl. apply IH.
Qed.

Lemma str_leb_antisym a b : str_leb a b = true -> str_leb b a = true -> a = b.
Proof.
  revert b. induction a as [|x a IH]; intros [|y b]; simpl; try discriminate; auto.
  destruct (N.ltb_spec x y), (N.ltb_spec y x); try lia;
    destruct (N.eqb_spec x y), (N.eqb_spec y x); try lia; try discriminate.
  intros. f_equal; auto.
Qed.

Lemma str_leb_trans a b c :
  str_leb a b = true -> str_leb b c = true -> str_leb a c = true.
Proof.
  revert b c. induction a as [|x a IH]; intros [|y b] [|z c]; simpl;
    try discriminate; auto.
  destruct (N.ltb_spec x y), (N.ltb_spec y z), (N.ltb_spec x z); try lia; auto;
    destruct (N.eqb_spec x y), (N.eqb_spec y z), (N.eqb_spec x z);
    try lia; try discriminate; eauto.
Qed.

#[global] Instance str_le_total : Total str_le.
Proof. intros a b. apply str_leb_total. Qed.
#[global] Instance str_le_trans : Transitive str_le.
Proof. intros a b c. apply str_leb_trans. Qed.
#[global] Instance str_le_antisym : AntiSymm (=) str_le.
Proof. intros a b. apply str_leb_antisym. Qed.
#[global] Instance str_le_refl : Reflexive str_le.
Proof. intros a. apply str_leb_refl. Qed.

Lemma js_sort_sorted l : StronglySorted str_le (js_sort l).
Proof. apply StronglySorted_merge_sort; apply _. Qed.

Lemma js_sort_perm l : Permutation (js_sort l) l.
Proof. apply merge_sort_Permutation. Qed.

Lemma js_sort_length l : length (js_sort l) = length l.
Proof. apply Permutation_length, js_sort_perm. Qed.

(** Sorting forgets the order of the input. *)
Lemma js_sort_permutation l l' : Permutation l l' -> js_sort l = js_sort l'.
Proof.
  intros H. apply (StronglySorted_unique str_le); try apply js_sort_sorted.
  rewrite !js_sort_perm. exact H.
Qed.

Lemma js_sort_id l : StronglySorted str_le l -> js_sort l = l.
Proof.
  intros H. apply (StronglySorted_unique str_le); auto using js_sort_sorted, js_sort_perm.
Qed.

(** A sorted sub-multiset of a sorted list is a subsequence of it. *)
Lemma sorted_submseteq_sublist (t s : list jsstring) :
  StronglySorted str_le t -> StronglySorted str_le s ->
  submseteq t s -> sublist t s.
Proof.
  intros Ht Hs. revert t Ht. induction Hs as [|x s Hs IH Hx]; intros t Ht Hsub.
  - apply submseteq_nil_r in Hsub. subst. constructor.
  - destruct t as [|y t]; [apply sublist_nil_l|].
    destruct (decide (x = y)) as [->|Hne].
    + apply sublist_skip, IH.
      * by inversion Ht.
      * by apply (submseteq_app_inv_l t s [y]).
    + apply sublist_cons, IH; [exact Ht|].
      destruct (decide (x ∈ y :: t)) as [Hin|Hnin].
      * exfalso. apply Hne.
        apply elem_of_cons in Hin as [?|Hin]; [done|].
        inversion Ht as [|? ? _ Hy]; subst.
        apply (anti_symm str_le).
        -- rewrite Forall_forall in Hx. apply Hx.
           assert (y ∈ x :: s) as Hy'
               by (eapply elem_of_submseteq; [|exact Hsub]; left).
           apply elem_of_cons in Hy' as [?|?]; congruence || done.
        -- rewrite Forall_forall in Hy. by apply Hy.
      * apply submseteq_cons_r in Hsub as [Hsub|(k & Hperm & _)]; [done|].
        exfalso. apply Hnin. rewrite Hperm. left.
Qed.

(** ** Enumeration of the combinations *)

Lemma sublists_k_0 {A} (l : list A) : sublists_k 0 l = [[]].
Proof. destruct l; reflexivity. Qed.

Lemma sublists_k_length {A} k (l : list A) :
  length (sublists_k k l) = choose (length l) k.
Proof.
  revert k. induction l as [|x l IH]; intros [|k]; simpl; try reflexivity.
  rewrite length_app, length_map, !IH. reflexivity.
Qed.

Lemma sublists_k_elem {A} k (l sub : list A) :
  sub ∈ sublists_k k l -> length sub = k /\ sublist sub l.
Proof.
  revert k sub. induction l as [|x l IH]; intros [|k] sub; simpl.
  - intros ->%list_elem_of_singleton. split; [done|constructor].
  - intros []%elem_of_nil.
  - intros ->%list_elem_of_singleton. split; [done|apply sublist_nil_l].
  - rewrite elem_of_app, list_elem_of_fmap.
    intros [(s & -> & Hs)|Hs].
    + apply IH in Hs as [<- Hs]. split; [done|by apply sublist_skip].
    + apply IH in Hs as [<- Hs]. split; [done|by apply sublist_cons].
Qed.

Lemma sublists_k_complete {A} (l sub : list A) :
  sublist sub l -> sub ∈ sublists_k (length sub) l.
Proof.
  induction 1 as [|x s l _ IH|x s l _ IH]; simpl.
  - apply list_elem_of_singleton. reflexivity.
  - apply elem_of_app. left. apply list_elem_of_fmap. eauto.
  - destruct s as [|y s]; simpl in *.
    + apply list_elem_of_singleton. reflexivity.
    + apply elem_of_app. right. exact IH.
Qed.

Lemma sublists_k_too_long {A} k (l : list A) : length l < k -> sublists_k k l = [].
Proof.
  revert k. induction l as [|x l IH]; intros [|k] H; simpl in *; try lia; [done|].
  rewrite !IH by lia. reflexivity.
Qed.

Lemma sublists_k_all {A} (l : list A) : sublists_k (length l) l = [l].
Proof.
  induction l as [|x l IH]; simpl; [done|].
  rewrite IH, sublists_k_too_long by lia. reflexivity.
Qed.

(** [choose] is the binomial coefficient: n! = C(n,k) k! (n-k)!. *)
Lemma choose_gt n k : n < k -> choose n k = 0.
Proof.
  revert k. induction n as [|n IH]; intros [|k] H; simpl; try lia.
  rewrite !IH by lia. reflexivity.
Qed.

Lemma choose_diag n : choose n n = 1.
Proof.
  induction n as [|n IH]; simpl; [done|].
  rewrite IH, choose_gt by lia. reflexivity.
Qed.

Lemma choose_fact n k :
  k <= n -> choose n k * (fact k * fact (n - k)) = fact n.
Proof.
  revert k. induction n as [|n IH]; intros [|k] H; try (simpl; lia).
  destruct (decide (k = n)) as [->|Hne].
  - rewrite choose_diag, Nat.sub_diag. simpl fact at 2. lia.
  - pose proof (IH k ltac:(lia)) as H1.
    pose proof (IH (S k) ltac:(lia)) as H2.
    change (choose (S n) (S k)) with (choose n k + choose n (S k)).
    change (S n - S k) with (n - k).
    replace (n - k) with (S (n - S k)) in * by lia.
    change (fact (S n)) with (S n * fact n).
    change (fact (S k)) with (S k * fact k) in *.
    change (fact (S (n - S k))) with (S (n - S k) * fact (n - S k)) in *.
    generalize dependent (fact (n - S k)). generalize dependent (fact k).
    generalize dependent (choose n k). generalize dependent (choose n (S k)).
    generalize dependent (fact n).
    intros. replace (S (n - S k)) with (n - k) in * by lia. nia.
Qed.

Lemma combine_spec l : forall passwords output prefix start,
  (l <> 0 \/ prefix <> None) ->
  combine passwords output prefix l start
  = Ok (output ++ map (fun sub => remove_first_space (default [] prefix ++ spaced sub))
                      (sublists_k l (drop start passwords))).
Proof.
  induction l as [|l IH]; intros passwords output prefix start Hp.
  - destruct prefix as [p|]; [|destruct Hp; congruence].
    simpl. rewrite sublists_k_0. unfold spaced. simpl. rewrite app_nil_r. reflexivity.
  - simpl combine.
    remember (length passwords - start) as n eqn:Hn.
    revert start output Hn.
    induction n as [|n IHn]; intros start output Hn.
    + rewrite drop_ge by lia. simpl. rewrite app_nil_r. reflexivity.
    + assert (is_Some (passwords !! start)) as [x Hx]
          by (apply lookup_lt_is_Some; lia).
      rewrite (drop_S _ _ _ Hx). simpl seq. simpl ofold. rewrite Hx.
      rewrite IH by (right; discriminate). simpl obind.
      rewrite (IHn (S start)) by lia.
      f_equal. simpl sublists_k. rewrite map_app, map_map, app_assoc.
      do 2 f_equal. apply map_ext. intros sub.
      unfold join_pair, spaced. simpl. rewrite <- app_assoc. reflexivity.
Qed.

Lemma remove_first_space_spaced sub :
  sub <> [] -> remove_first_space (spaced sub) = join_space sub.
Proof. destruct sub; [congruence|reflexivity]. Qed.

(** The enumeration as a whole, for a positive number of levels. *)
Lemma combine_top passwords l :
  combine passwords [] None (S l) 0
  = Ok (map join_space (sublists_k (S l) passwords)).
Proof.
  rewrite combine_spec by (left; discriminate). rewrite drop_0. simpl app.
  f_equal. apply map_ext_in. intros sub Hin.
  apply remove_first_space_spaced. intros ->.
  apply list_elem_of_In, sublists_k_elem in Hin as [Hlen _]. discriminate.
Qed.

Lemma combine_zero passwords output start :
  combine passwords output None 0 start = Throw TypeError.
Proof. reflexivity. Qed.

(** ** Format detection *)

Lemma truthy_false x :
  truthy x = false
  <-> x = JUndefined \/ x = JNull \/ x = JBool false \/ x = JNum 0 \/ x = JStr [].
Proof.
  split.
  - destruct x as [| |[]|z|[|c s]|]; simpl; try discriminate; auto.
    destruct (Z.eqb_spec z 0); [subst; auto | discriminate].
  - intros [->|[->|[->|[->| ->]]]]; reflexivity.
Qed.

Lemma strict_eq_num_true x n : strict_eq_num x n = true <-> x = JNum n.
Proof.
  destruct x; simpl; try (split; [discriminate|congruence]).
  rewrite Z.eqb_eq. split; congruence.
Qed.

Lemma strict_eq_str_true x s : strict_eq_str x s = true <-> x = JStr s.
Proof.
  destruct x; simpl; try (split; [discriminate|congruence]).
  unfold jsstring_eqb. rewrite bool_decide_eq_true. split; congruence.
Qed.

(** C8, as stated, fails: for the envelope [version_zero] the function
    returns true although the version field is present and not 1 and the
    mode is not a deprecated one. *)
Lemma isLegacyFormat_version_zero :
  isLegacyFormat version_zero = true /\ ~ legacy_as_specified version_zero.
Proof.
  split; [reflexivity|].
  unfold legacy_as_specified. simpl. intros [H|[H|[H|H]]]; discriminate.
Qed.

(** C8, amended: [isLegacyFormat] returns true exactly when the version
    field is absent or another falsy value ([null], [false], [0], the
    empty string), or equals 1, or the mode is ['ccm'] or ['ocb2']; it
    returns false for [v = 2] with mode ['chacha20poly1305']. *)
Theorem isLegacyFormat_spec :
  forall (D : Type) (c : Envelope.t D),
    (isLegacyFormat c = true
     <-> ((Envelope.v c = JUndefined \/ Envelope.v c = JNull
           \/ Envelope.v c = JBool false \/ Envelope.v c = JNum 0
           \/ Envelope.v c = JStr [])
          \/ Envelope.v c = JNum 1
          \/ Envelope.mode c = JStr CCM
          \/ Envelope.mode c = JStr OCB2))
    /\ forall cipher ts ks iter adata fn ft nkeys nunlock (salt iv ct : D) keys,
         isLegacyFormat
           (Envelope.Build (JNum 2) (JStr CHACHA20POLY1305) cipher ts ks iter adata
                           fn ft nkeys nunlock salt iv ct keys) = false.
Proof.
  intros D c. split; [|reflexivity].
  unfold isLegacyFormat.
  rewrite !orb_true_iff, negb_true_iff, truthy_false, strict_eq_num_true,
    !strict_eq_str_true.
  tauto.
Qed.

(** ** Rules for runs *)

Lemma sat_bind {A B} (m : M A) (f : A -> M B) w R :
  sat m w (fun o w1 =>
             match o with
             | Ok a => sat (f a) w1 R
             | Throw e => R (Throw e) w1
             | OutOfFuel => R OutOfFuel w1
             end) ->
  sat (bind m f) w R.
Proof.
  unfold sat, bind. destruct (m w) as [[a|e|] w1]; simpl; auto.
Qed.

Lemma returns_intro {A} (m : M A) w a w' (Q : A -> world -> Prop) :
  m w = (Ok a, w') -> Q a w' -> returns m w Q.
Proof. unfold returns, sat. intros -> H. exact H. Qed.

Lemma returns_elim {A} (m : M A) w (Q : A -> world -> Prop) :
  returns m w Q -> exists a w', m w = (Ok a, w') /\ Q a w'.
Proof.
  unfold returns, sat. destruct (m w) as [[a|e|] w1]; simpl; try tauto. eauto.
Qed.

Lemma returns_bind {A B} (m : M A) (f : A -> M B) w Q :
  returns m w (fun a w1 => returns (f a) w1 Q) -> returns (bind m f) w Q.
Proof.
  intros H. apply sat_bind. unfold returns, sat in *.
  destruct (m w) as [[a|e|] w1]; simpl in *; auto.
Qed.

Lemma returns_mono {A} (m : M A) w (Q Q' : A -> world -> Prop) :
  returns m w Q -> (forall a w', Q a w' -> Q' a w') -> returns m w Q'.
Proof.
  unfold returns, sat. destruct (m w) as [[a|e|] w1]; simpl; auto.
Qed.

Lemma ensures_intro {A} (m : M A) w (Q : A -> world -> Prop) :
  (forall a w', m w = (Ok a, w') -> Q a w') -> ensures m w Q.
Proof.
  unfold ensures, sat. destruct (m w) as [[a|e|] w1]; simpl; auto.
Qed.

Lemma ensures_elim {A} (m : M A) w (Q : A -> world -> Prop) a w' :
  ensures m w Q -> m w = (Ok a, w') -> Q a w'.
Proof. unfold ensures, sat. intros H E. rewrite E in H. exact H. Qed.

Lemma ensures_bind {A B} (m : M A) (f : A -> M B) w Q :
  ensures m w (fun a w1 => ensures (f a) w1 Q) -> ensures (bind m f) w Q.
Proof.
  intros H. apply sat_bind. unfold ensures, sat in *.
  destruct (m w) as [[a|e|] w1]; simpl in *; auto.
Qed.

Lemma ensures_mono {A} (m : M A) w (Q Q' : A -> world -> Prop) :
  ensures m w Q -> (forall a w', Q a w' -> Q' a w') -> ensures m w Q'.
Proof.
  unfold ensures, sat. destruct (m w) as [[a|e|] w1]; simpl; auto.
Qed.

Lemma returns_ensures {A} (m : M A) w (Q Q' : A -> world -> Prop) :
  returns m w Q -> ensures m w Q' -> returns m w (fun a w' => Q a w' /\ Q' a w').
Proof.
  unfold returns, ensures, sat. destruct (m w) as [[a|e|] w1]; simpl; auto.
Qed.

Lemma bind_ok {A B} (m : M A) (f : A -> M B) w a w1 :
  m w = (Ok a, w1) -> bind m f w = f a w1.
Proof. unfold bind. intros ->. reflexivity. Qed.

Lemma bind_throw {A B} (m : M A) (f : A -> M B) w e w1 :
  m w = (Throw e, w1) -> bind m f w = (Throw e, w1).
Proof. unfold bind. intros ->. reflexivity. Qed.

Lemma bind_ok_inv {A B} (m : M A) (f : A -> M B) w b w' :
  bind m f w = (Ok b, w') ->
  exists a w1, m w = (Ok a, w1) /\ f a w1 = (Ok b, w').
Proof.
  unfold bind. destruct (m w) as [[a|e|] w1]; try discriminate. eauto.
Qed.

(** *** Runs with fuel *)

Lemma converges_const {A} (m : M A) w a w' :
  m w = (Ok a, w') -> converges (fun _ => m) w a w'.
Proof. intros H. exists 0. intros _ _. exact H. Qed.

Lemma converges_bind {A B} (m : nat -> M A) (f : nat -> A -> M B) w a w1 b w2 :
  converges m w a w1 ->
  converges (fun fuel => f fuel a) w1 b w2 ->
  converges (fun fuel => bind (m fuel) (f fuel)) w b w2.
Proof.
  intros [f1 H1] [f2 H2]. exists (Nat.max f1 f2). intros fuel Hf.
  rewrite (bind_ok _ _ _ _ _ (H1 fuel ltac:(lia))). apply H2. lia.
Qed.

Lemma returns_fuel_bind {A B} (m : nat -> M A) (f : nat -> A -> M B) w Q :
  returns_fuel m w (fun a w1 => returns_fuel (fun fuel => f fuel a) w1 Q) ->
  returns_fuel (fun fuel => bind (m fuel) (f fuel)) w Q.
Proof.
  intros (a & w1 & H1 & b & w2 & H2 & HQ).
  exists b, w2. split; [|exact HQ]. eapply converges_bind; eauto.
Qed.

Lemma returns_fuel_const {A} (m : M A) w Q :
  returns m w Q -> returns_fuel (fun _ => m) w Q.
Proof.
  intros (a & w' & H & HQ)%returns_elim. exists a, w'.
  split; [by apply converges_const | exact HQ].
Qed.

Lemma returns_fuel_mono {A} (m : nat -> M A) w (Q Q' : A -> world -> Prop) :
  returns_fuel m w Q -> (forall a w', Q a w' -> Q' a w') -> returns_fuel m w Q'.
Proof. intros (a & w' & H & HQ) HQQ. exists a, w'. auto. Qed.

(** ** [makeCombinedPasswords] *)

Lemma StronglySorted_sublist {A} (R : relation A) (sub l : list A) :
  sublist sub l -> StronglySorted R l -> StronglySorted R sub.
Proof.
  induction 1 as [|x s l Hs IH|x s l Hs IH]; intros Hl; [constructor| |].
  - inversion Hl as [|? ? Hl' Hx]; subst. constructor; [auto|].
    rewrite Forall_forall in *. intros y Hy. apply Hx.
    eapply elem_of_submseteq; [exact Hy|]. by apply sublist_submseteq.
  - inversion Hl; auto.
Qed.

Lemma makeCombinedPasswords_run passwords m w :
  makeCombinedPasswords passwords m w
  = (combine (js_sort (map normalizeString passwords)) [] None
             (Z.to_nat (to_number m)) 0,
     {| kb := set_nToUnlock m
                (set_nPasswords (Some (Z.of_nat (length passwords))) (kb w));
        rng_pos := rng_pos w; trace := trace w |}).
Proof. reflexivity. Qed.

Lemma makeCombinedPasswords_ok passwords (z : Z) w :
  (1 <= z)%Z ->
  fst (makeCombinedPasswords passwords (Some z) w)
  = Ok (combinations passwords (Z.to_nat z)).
Proof.
  intros Hz. rewrite makeCombinedPasswords_run. simpl.
  destruct (Z.to_nat z) as [|l] eqn:E; [lia|].
  apply combine_top.
Qed.

Lemma makeCombinedPasswords_ok_run passwords (z : Z) w :
  (1 <= z)%Z ->
  makeCombinedPasswords passwords (Some z) w
  = (Ok (combinations passwords (Z.to_nat z)),
     {| kb := set_nToUnlock (Some z)
                (set_nPasswords (Some (Z.of_nat (length passwords))) (kb w));
        rng_pos := rng_pos w; trace := trace w |}).
Proof.
  intros Hz. rewrite makeCombinedPasswords_run. f_equal.
  change (to_number (Some z)) with z.
  destruct (Z.to_nat z) as [|l] eqn:E; [lia|].
  apply combine_top.
Qed.

Lemma modify_run f w :
  modify f w = (Ok tt, {| kb := f (kb w); rng_pos := rng_pos w; trace := trace w |}).
Proof. reflexivity. Qed.

Lemma normalized_map passwords :
  Forall normalized passwords -> map normalizeString passwords = passwords.
Proof.
  induction 1 as [|p l Hp _ IH]; simpl; [done|]. rewrite Hp, IH. reflexivity.
Qed.

(** C3. Order independence: a permutation of the password list gives
    the same run of [makeCombinedPasswords], hence the identical
    sequence of combinations; and each combination is the space-joined
    string of a sorted selection of M normalized passwords. *)
Theorem makeCombinedPasswords_permutation :
  forall (passwords passwords' : list jsstring) (m : option Z) (w : world),
    Permutation passwords passwords' ->
    makeCombinedPasswords passwords' m w = makeCombinedPasswords passwords m w
    /\ ensures (makeCombinedPasswords passwords m) w
         (fun combos _ =>
            Forall (fun c =>
                      exists sub,
                        c = join_space sub
                        /\ length sub = Z.to_nat (to_number m)
                        /\ StronglySorted str_le sub
                        /\ submseteq sub (map normalizeString passwords))
                   combos).
Proof.
  intros passwords passwords' m w Hperm. split.
  - rewrite !makeCombinedPasswords_run.
    rewrite (js_sort_permutation (map normalizeString passwords')
                                 (map normalizeString passwords))
      by (apply Permutation_map; symmetry; exact Hperm).
    rewrite (Permutation_length Hperm). reflexivity.
  - unfold ensures, sat. rewrite makeCombinedPasswords_run. simpl.
    destruct (Z.to_nat (to_number m)) as [|l] eqn:E; [exact I|].
    rewrite combine_top. rewrite Forall_forall. intros c Hc.
    apply list_elem_of_fmap in Hc as (sub & -> & Hsub).
    apply sublists_k_elem in Hsub as [Hlen Hsub].
    exists sub. repeat split; auto.
    + eapply StronglySorted_sublist; [exact Hsub | apply js_sort_sorted].
    + rewrite <- (js_sort_perm (map normalizeString passwords)).
      by apply sublist_submseteq.
Qed.

Lemma makeCombinedPasswords_permutation_witness :
  makeCombinedPasswords [Ref.alpha; Ref.beta; Ref.gamma] (Some 2%Z) Ref.start
  = makeCombinedPasswords [Ref.gamma; Ref.alpha; Ref.beta] (Some 2%Z) Ref.start
  /\ fst (makeCombinedPasswords [Ref.gamma; Ref.alpha; Ref.beta] (Some 2%Z) Ref.start)
     = Ok [lit "alpha beta"; lit "alpha gamma"; lit "beta gamma"].
Proof.
  split; [|vm_compute; reflexivity].
  apply (makeCombinedPasswords_permutation
           [Ref.gamma; Ref.alpha; Ref.beta] [Ref.alpha; Ref.beta; Ref.gamma]
           (Some 2%Z) Ref.start).
  exact (Permutation_cons_append [Ref.alpha; Ref.beta] Ref.gamma).
Defined.

(** ** Key derivation *)

Lemma makeKeyFromPassword_run P c w :
  makeKeyFromPassword P c w
  = (match derive P (kb w) c with Some k => Ok k | None => Throw LibraryError end,
     {| kb := kb w; rng_pos := rng_pos w; trace := trace w ++ [EvDerive c] |}).
Proof.
  unfold makeKeyFromPassword, derive, bind, get. simpl.
  destruct (sjcl_defined P && isArray (_salt (kb w))).
  - unfold deriveKeyLegacy, bind, emit, lift_lib. simpl.
    destruct (sjcl_pbkdf2 P _ _ _ _); reflexivity.
  - unfold deriveKeyFromPassword, bind, emit, lift_lib. simpl.
    destruct (pbkdf2_sha256 P _ _ _ _); reflexivity.
Qed.

Lemma key_loop_ok P combos : forall w ks,
  Forall2 (fun c k => derive P (kb w) c = Some k) combos ks ->
  for_each (push_key P) combos w
  = (Ok tt, {| kb := set_keys (_keys (kb w) ++ ks) (kb w);
               rng_pos := rng_pos w;
               trace := trace w ++ map EvDerive combos |}).
Proof.
  induction combos as [|c combos IH]; intros w ks H; inversion H as [|? k ? ks' Hk Hks]; subst.
  - simpl. unfold ret. rewrite !app_nil_r. destruct w as [[] ? ?]; reflexivity.
  - simpl. unfold push_key at 1. unfold bind at 1 2.
    rewrite makeKeyFromPassword_run, Hk. simpl.
    rewrite (IH _ ks') by exact Hks. simpl.
    rewrite <- !app_assoc. reflexivity.
Qed.

Lemma key_loop_inv P combos : forall w w',
  for_each (push_key P) combos w = (Ok tt, w') ->
  exists ks, Forall2 (fun c k => derive P (kb w) c = Some k) combos ks.
Proof.
  induction combos as [|c combos IH]; intros w w' H.
  - exists []. constructor.
  - simpl in H. unfold push_key at 1 in H. unfold bind at 1 2 in H.
    rewrite makeKeyFromPassword_run in H.
    destruct (derive P (kb w) c) as [k|] eqn:Hk; [|discriminate].
    simpl in H. apply IH in H as [ks Hks]. exists (k :: ks).
    constructor; [exact Hk | exact Hks].
Qed.

Lemma makeKeyCombinations_unfold P passwords m :
  makeKeyCombinations P passwords m
  = (let* _ := modify (set_keys []) in
     let* combinations := makeCombinedPasswords passwords m in
     let* _ := for_each (push_key P) combinations in
     let* k := get in
     ret (_keys k)).
Proof. reflexivity. Qed.

(** With fewer than one level the enumeration throws at once. *)
Lemma makeKeyCombinations_throws P passwords (z : Z) w :
  (z < 1)%Z ->
  makeKeyCombinations P passwords (Some z) w
  = (Throw TypeError,
     {| kb := set_nToUnlock (Some z)
                (set_nPasswords (Some (Z.of_nat (length passwords)))
                   (set_keys [] (kb w)));
        rng_pos := rng_pos w; trace := trace w |}).
Proof.
  intros Hz. rewrite makeKeyCombinations_unfold. unfold bind at 1. simpl.
  unfold bind at 1. rewrite makeCombinedPasswords_run. simpl.
  replace (Z.to_nat z) with 0 by lia. reflexivity.
Qed.

(** When all derivations succeed. *)
Lemma makeKeyCombinations_ok P passwords (z : Z) w ks :
  (1 <= z)%Z ->
  Forall2 (fun c k => derive P (kb w) c = Some k)
          (combinations passwords (Z.to_nat z)) ks ->
  makeKeyCombinations P passwords (Some z) w
  = (Ok ks,
     {| kb := set_keys ks
                (set_nToUnlock (Some z)
                   (set_nPasswords (Some (Z.of_nat (length passwords))) (kb w)));
        rng_pos := rng_pos w;
        trace := trace w ++ map EvDerive (combinations passwords (Z.to_nat z)) |}).
Proof.
  intros Hz Hks. rewrite makeKeyCombinations_unfold.
  rewrite (bind_ok _ _ _ _ _ (modify_run _ _)).
  rewrite (bind_ok _ _ _ _ _ (makeCombinedPasswords_ok_run _ _ _ Hz)).
  erewrite bind_ok by (apply key_loop_ok; exact Hks).
  reflexivity.
Qed.

(** Whenever the call returns, it returns one key per combination. *)
Lemma makeKeyCombinations_inv P passwords m w keys w' :
  makeKeyCombinations P passwords m w = (Ok keys, w') ->
  exists z, m = Some z /\ (1 <= z)%Z
    /\ Forall2 (fun c k => derive P (kb w) c = Some k)
               (combinations passwords (Z.to_nat z)) keys
    /\ w' = {| kb := set_keys keys
                 (set_nToUnlock (Some z)
                    (set_nPasswords (Some (Z.of_nat (length passwords))) (kb w)));
               rng_pos := rng_pos w;
               trace := trace w ++ map EvDerive (combinations passwords (Z.to_nat z)) |}.
Proof.
  intros H.
  destruct m as [z|].
  2:{ rewrite makeKeyCombinations_unfold in H.
      rewrite (bind_ok _ _ _ _ _ (modify_run _ _)) in H.
      unfold bind at 1 in H. rewrite makeCombinedPasswords_run in H. discriminate. }
  destruct (Z_lt_le_dec z 1) as [Hlt|Hge].
  { rewrite makeKeyCombinations_throws in H by exact Hlt. discriminate. }
  exists z. split; [done|]. split; [done|].
  pose proof H as H0.
  rewrite makeKeyCombinations_unfold in H.
  rewrite (bind_ok _ _ _ _ _ (modify_run _ _)) in H.
  rewrite (bind_ok _ _ _ _ _ (makeCombinedPasswords_ok_run _ _ _ Hge)) in H.
  apply bind_ok_inv in H as ([] & w1 & Hloop & _).
  apply key_loop_inv in Hloop as [ks Hks]. simpl in Hks.
  rewrite (makeKeyCombinations_ok P passwords z w ks Hge Hks) in H0.
  inversion H0; subst. split; [exact Hks | reflexivity].
Qed.

(** ** Runs that leave the engine's object alone *)

Lemma kb_stable_ret {A} (a : A) : kb_stable (ret a).
Proof. intros w. reflexivity. Qed.
Lemma kb_stable_throw {A} e : kb_stable (@throw A e).
Proof. intros w. reflexivity. Qed.
Lemma kb_stable_out_of_fuel {A} : kb_stable (@out_of_fuel A).
Proof. intros w. reflexivity. Qed.
Lemma kb_stable_lift {A} (o : outcome A) : kb_stable (lift o).
Proof. intros w. reflexivity. Qed.
Lemma kb_stable_lift_lib {A} (o : option A) : kb_stable (lift_lib o).
Proof. intros w. destruct o; reflexivity. Qed.
Lemma kb_stable_emit e : kb_stable (emit e).
Proof. intros w. reflexivity. Qed.
Lemma kb_stable_get : kb_stable get.
Proof. intros w. reflexivity. Qed.
Lemma kb_stable_getRandomBytes P n : kb_stable (getRandomBytes P n).
Proof. intros w. reflexivity. Qed.

Lemma kb_stable_bind {A B} (m : M A) (f : A -> M B) :
  kb_stable m -> (forall a, kb_stable (f a)) -> kb_stable (bind m f).
Proof.
  intros Hm Hf w. unfold bind. specialize (Hm w).
  destruct (m w) as [[a|e|] w1]; simpl in *; auto.
  rewrite Hf. exact Hm.
Qed.

Lemma kb_stable_try_catch {A} (m : M A) (h : exn -> M A) :
  kb_stable m -> (forall e, kb_stable (h e)) -> kb_stable (try_catch m h).
Proof.
  intros Hm Hh w. unfold try_catch. specialize (Hm w).
  destruct (m w) as [[a|e|] w1]; simpl in *; auto.
  rewrite Hh. exact Hm.
Qed.

Lemma kb_stable_for_push {A B} (body : A -> M B) l :
  (forall a, kb_stable (body a)) -> forall acc, kb_stable (for_push body l acc).
Proof.
  intros Hb. induction l as [|a l IH]; intros acc; simpl.
  - apply kb_stable_ret.
  - apply kb_stable_bind; auto.
Qed.

Create HintDb kbstable.
#[export] Hint Resolve kb_stable_ret kb_stable_throw kb_stable_out_of_fuel
  kb_stable_lift kb_stable_lift_lib kb_stable_emit kb_stable_get
  kb_stable_getRandomBytes kb_stable_bind kb_stable_try_catch
  kb_stable_for_push : kbstable.

Lemma kb_stable_resample P fuel : forall mv v, kb_stable (resample P fuel mv v).
Proof.
  induction fuel as [|fuel IH]; intros mv v; simpl;
    destruct (v >=? mv)%Z; auto with kbstable.
Qed.

Lemma kb_stable_randomIntegers P fuel max count :
  kb_stable (randomIntegers P fuel max count).
Proof.
  unfold randomIntegers. apply kb_stable_bind; [auto with kbstable|].
  intros b. apply kb_stable_for_push. intros i.
  apply kb_stable_bind; [apply kb_stable_resample | auto with kbstable].
Qed.

Lemma kb_stable_shuffle_loop {A} P fuel i : forall arr : list A,
  kb_stable (shuffle_loop P fuel i arr).
Proof.
  induction i as [|i IH]; intros arr; simpl; [auto with kbstable|].
  apply kb_stable_bind; [apply kb_stable_randomIntegers | auto].
Qed.

Lemma kb_stable_shuffle {A} P fuel (arr : list A) : kb_stable (shuffle P fuel arr).
Proof. apply kb_stable_shuffle_loop. Qed.

Lemma kb_stable_encrypt P key pt nonce aad :
  kb_stable (encryptChaCha20Poly1305 P key pt nonce aad).
Proof.
  unfold encryptChaCha20Poly1305. destruct (data_truthy nonce);
    repeat (apply kb_stable_bind; [|intros ?]); auto with kbstable.
Qed.

Lemma kb_stable_decrypt P key ct nonce aad :
  kb_stable (decryptChaCha20Poly1305 P key ct nonce aad).
Proof.
  unfold decryptChaCha20Poly1305.
  repeat (apply kb_stable_bind; [|intros ?]); auto with kbstable.
Qed.

#[export] Hint Resolve kb_stable_resample kb_stable_randomIntegers
  kb_stable_shuffle_loop kb_stable_shuffle kb_stable_encrypt
  kb_stable_decrypt : kbstable.

Lemma kb_stable_run {A} (m : M A) w o w' :
  kb_stable m -> m w = (o, w') -> kb w' = kb w.
Proof. intros H E. specialize (H w). rewrite E in H. exact H. Qed.

(** ** The shuffle *)

Lemma swap_length {A} (arr : list A) i j : length (swap arr i j) = length arr.
Proof.
  unfold swap. destruct (arr !! i), (arr !! j); auto.
  rewrite !length_insert. reflexivity.
Qed.

Lemma transpose_inj i j : Inj (=) (=) (transpose i j).
Proof.
  intros x y. unfold transpose.
  repeat case_decide; intros; subst; congruence.
Qed.

Lemma swap_lookup {A} (arr : list A) i j x :
  i < length arr -> j < length arr ->
  swap arr i j !! x = arr !! transpose i j x.
Proof.
  intros Hi Hj. unfold swap.
  destruct (lookup_lt_is_Some_2 arr i Hi) as [ai Hai].
  destruct (lookup_lt_is_Some_2 arr j Hj) as [aj Haj].
  rewrite Hai, Haj. unfold transpose.
  rewrite !list_lookup_insert, !length_insert.
  repeat case_decide; subst; try lia; try congruence; try tauto.
  all: try (exfalso; tauto).
  destruct H as [-> _]. congruence.
Qed.

Lemma swap_Permutation {A} (arr : list A) i j : Permutation (swap arr i j) arr.
Proof.
  destruct (decide (i < length arr /\ j < length arr)) as [[Hi Hj]|Hn].
  - apply Permutation_inj. split; [apply swap_length|].
    exists (transpose i j). split; [apply transpose_inj|].
    intros x. by apply swap_lookup.
  - unfold swap.
    destruct (arr !! i) eqn:Ei; [|reflexivity].
    destruct (arr !! j) eqn:Ej; [|reflexivity].
    apply lookup_lt_Some in Ei, Ej. tauto.
Qed.

(** Whatever the entropy and the fuel, a shuffle that returns has
    permuted its array. *)
Lemma shuffle_loop_Permutation {A} P fuel i : forall (arr : list A) w,
  ensures (shuffle_loop P fuel i arr) w (fun r _ => Permutation r arr).
Proof.
  induction i as [|i IH]; intros arr w; simpl.
  - unfold ensures, sat. simpl. reflexivity.
  - apply ensures_bind. apply ensures_intro. intros r w1 _.
    eapply ensures_mono; [apply IH|]. simpl. intros r' _ Hr.
    rewrite Hr. apply swap_Permutation.
Qed.

Lemma shuffle_Permutation {A} P fuel (arr : list A) w :
  ensures (shuffle P fuel arr) w (fun r _ => Permutation r arr).
Proof. apply shuffle_loop_Permutation. Qed.

(** *** Termination of the rejection sampling *)

Lemma returns_fuel_strengthen {A} (m : nat -> M A) w (Q Q' : A -> world -> Prop) :
  returns_fuel m w Q ->
  (forall fuel a w', m fuel w = (Ok a, w') -> Q' a w') ->
  returns_fuel m w (fun a w' => Q a w' /\ Q' a w').
Proof.
  intros (a & w' & [f0 H] & HQ) HQ'. exists a, w'.
  split; [by exists f0|]. split; [exact HQ|].
  apply (HQ' f0). apply H. lia.
Qed.

Lemma resample_accepts P fuel mv value w :
  (value < mv)%Z -> resample P fuel mv value w = (Ok value, w).
Proof.
  intros H. destruct fuel; simpl;
    destruct (Z.geb_spec value mv); try lia; reflexivity.
Qed.

Lemma resample_converges P mv : forall k w value,
  (uint32_le (map (entropy P) (seq (rng_pos w + 4 * k) 4)) < mv)%Z ->
  exists v w', forall fuel, S k <= fuel -> resample P fuel mv value w = (Ok v, w').
Proof.
  induction k as [|k IH]; intros w value Hk.
  - destruct (Z.geb_spec value mv) as [Hge|Hlt].
    + eexists _, _. intros [|fuel] Hf; [lia|]. simpl.
      destruct (Z.geb_spec value mv); [|lia].
      unfold bind, getRandomBytes. simpl.
      apply resample_accepts. rewrite Nat.add_0_r in Hk. exact Hk.
    + exists value, w. intros fuel _. by apply resample_accepts.
  - destruct (Z.geb_spec value mv) as [Hge|Hlt].
    + destruct (IH {| kb := kb w; rng_pos := rng_pos w + 4;
                      trace := trace w ++ [EvRandom 4] |}
                   (uint32_le (map (entropy P) (seq (rng_pos w) 4))))
        as (v & w' & H).
      { cbn [rng_pos].
        replace (rng_pos w + 4 + 4 * k) with (rng_pos w + 4 * S k) by lia.
        exact Hk. }
      exists v, w'. intros [|fuel] Hf; [lia|]. simpl.
      destruct (Z.geb_spec value mv); [|lia].
      unfold bind, getRandomBytes. simpl. apply H. lia.
    + exists value, w. intros fuel _. by apply resample_accepts.
Qed.

Lemma returns_fuel_for_push {A B} (body : nat -> A -> M B) l :
  (forall a w, returns_fuel (fun fuel => body fuel a) w (fun _ _ => True)) ->
  forall acc w,
    returns_fuel (fun fuel => for_push (body fuel) l acc) w (fun _ _ => True).
Proof.
  intros Hb. induction l as [|a l IH]; intros acc w; simpl.
  - apply returns_fuel_const. by eapply returns_intro.
  - apply (returns_fuel_bind (fun fuel => body fuel a)
             (fun fuel b => for_push (body fuel) l (acc ++ [b]))).
    eapply returns_fuel_mono; [apply Hb|]. intros b w1 _. apply IH.
Qed.

Lemma randomIntegers_converges P max count w :
  fair_entropy P -> (Z.pos max <= 4294967295)%Z ->
  returns_fuel (fun fuel => randomIntegers P fuel max count) w (fun _ _ => True).
Proof.
  intros Hfair Hmax. unfold randomIntegers.
  apply (returns_fuel_bind (fun _ => getRandomBytes P (count * 4))
           (fun fuel randomBytes =>
              for_push (fun i =>
                          let* value :=
                            resample P fuel (4294967295 / Z.pos max * Z.pos max)
                              (uint32_le (take 4 (drop (4 * i) randomBytes))) in
                          ret (Z.rem value (Z.pos max)))
                       (seq 0 count) [])).
  apply returns_fuel_const. eapply returns_intro; [reflexivity|].
  apply (returns_fuel_for_push
           (fun fuel i =>
              let* value :=
                resample P fuel (4294967295 / Z.pos max * Z.pos max)
                  (uint32_le (take 4 (drop (4 * i)
                     (map (entropy P) (seq (rng_pos w) (count * 4)))))) in
              ret (Z.rem value (Z.pos max)))).
  intros i w1.
  destruct (Hfair (rng_pos w1) max Hmax) as [k Hk].
  destruct (resample_converges P _ k w1
              (uint32_le (take 4 (drop (4 * i)
                 (map (entropy P) (seq (rng_pos w) (count * 4)))))) Hk)
    as (v & w' & H).
  exists (Z.rem v (Z.pos max)), w'. split; [|exact I].
  exists (S k). intros fuel Hf. unfold bind. rewrite (H fuel Hf). reflexivity.
Qed.

Lemma shuffle_loop_converges {A} P i : forall (arr : list A) w,
  fair_entropy P -> (Z.of_nat i < 4294967295)%Z ->
  returns_fuel (fun fuel => shuffle_loop P fuel i arr) w (fun _ _ => True).
Proof.
  induction i as [|i IH]; intros arr w Hfair Hi; simpl.
  - apply returns_fuel_const. by eapply returns_intro.
  - apply (returns_fuel_bind (fun fuel => randto P fuel (Pos.of_succ_nat (S i)) 1)
             (fun fuel r => shuffle_loop P fuel i
                              (swap arr (S i) (Z.to_nat (hd 0%Z r))))).
    eapply returns_fuel_mono.
    + apply randomIntegers_converges; [exact Hfair | lia].
    + intros r w1 _. apply IH; [exact Hfair | lia].
Qed.

(** On fair entropy the shuffle of an array that JavaScript can hold
    returns a permutation of it and leaves the engine alone. *)
Lemma shuffle_converges {A} P (arr : list A) w :
  fair_entropy P -> (Z.of_nat (length arr) <= 4294967295)%Z ->
  returns_fuel (fun fuel => shuffle P fuel arr) w
    (fun r w' => kb w' = kb w /\ Permutation r arr).
Proof.
  intros Hfair Hlen.
  eapply returns_fuel_mono.
  - apply (returns_fuel_strengthen _ _ (fun _ _ => True)
             (fun r w' => kb w' = kb w /\ Permutation r arr)).
    + apply (shuffle_loop_converges P (length arr - 1) arr w Hfair). lia.
    + intros fuel r w' H. split.
      * exact (kb_stable_run _ _ _ _ (kb_stable_shuffle P fuel arr) H).
      * exact (ensures_elim _ _ _ _ _ (shuffle_Permutation P fuel arr w) H).
  - simpl. tauto.
Qed.

(** The swaps stay inside the array: [j] is drawn below [i + 1]. *)
Lemma resample_below P fuel mv : forall value w,
  ensures (resample P fuel mv value) w (fun v _ => (v < mv)%Z).
Proof.
  induction fuel as [|fuel IH]; intros value w; simpl;
    destruct (Z.geb_spec value mv) as [Hge|Hlt].
  - exact I.
  - unfold ensures, sat. simpl. exact Hlt.
  - apply ensures_bind. apply ensures_intro. intros b w1 _. apply IH.
  - unfold ensures, sat. simpl. exact Hlt.
Qed.

(** ** The envelope codec *)

Lemma ofor_push_cons {A B} (f : A -> outcome B) a l acc :
  ofor_push f (a :: l) acc = obind (f a) (fun b => ofor_push f l (acc ++ [b])).
Proof. reflexivity. Qed.

Lemma for_push_ext {A B} (body body' : A -> M B) l :
  (forall a w, body a w = body' a w) ->
  forall acc w, for_push body l acc w = for_push body' l acc w.
Proof.
  intros H. induction l as [|a l IH]; intros acc w; simpl; [reflexivity|].
  unfold bind. rewrite H. destruct (body' a w) as [[b|e|] w1]; auto.
Qed.

Lemma for_push_lift {A B} (f : A -> outcome B) l : forall acc w,
  for_push (fun a => lift (f a)) l acc w = (ofor_push f l acc, w).
Proof.
  induction l as [|a l IH]; intros acc w; simpl; [reflexivity|].
  unfold bind, lift. destruct (f a) as [b|e|]; simpl; auto.
Qed.

Lemma ofor_push_map {A B} (f : A -> outcome B) (g : A -> B) l :
  Forall (fun a => f a = Ok (g a)) l ->
  forall acc, ofor_push f l acc = Ok (acc ++ map g l).
Proof.
  induction 1 as [|a l Ha _ IH]; intros acc; simpl.
  - by rewrite app_nil_r.
  - rewrite Ha. simpl. rewrite IH, <- app_assoc. reflexivity.
Qed.

Lemma ofor_push_length {A B} (f : A -> outcome B) l : forall acc r,
  ofor_push f l acc = Ok r -> length r = length acc + length l.
Proof.
  induction l as [|a l IH]; intros acc r; simpl.
  - intros [= <-]. lia.
  - destruct (f a) as [b|e|]; simpl; try discriminate.
    intros H%IH. rewrite length_app in H. simpl in *. lia.
Qed.

Lemma getCipherJSON_run P w :
  getCipherJSON P w
  = (match _cipherobj (kb w) with
     | None => Throw TypeError
     | Some c => obind (encode_wire P c) (fun wi => Ok (JSON_stringify P wi))
     end, w).
Proof.
  unfold getCipherJSON, encode_wire, bind, get. simpl.
  destruct (_cipherobj (kb w)) as [c|]; [|reflexivity].
  unfold lift.
  destruct (encodeBase64 P (Envelope.salt c)); simpl; try reflexivity.
  destruct (encodeBase64 P (Envelope.iv c)); simpl; try reflexivity.
  destruct (encodeBase64 P (Envelope.ct c)); simpl; try reflexivity.
  destruct (Envelope.keys c) as [ks|]; [|reflexivity].
  rewrite (for_push_lift (encode_entry P)).
  destruct (ofor_push (encode_entry P) ks []); reflexivity.
Qed.

Lemma bind_lift_ok {A B} (o : outcome A) (f : A -> M B) w a :
  o = Ok a -> bind (lift o) f w = f a w.
Proof. intros ->. reflexivity. Qed.

Lemma setCipherJSON_current P data obj c w :
  JSON_parse P data = Some obj ->
  isLegacyFormat obj = false ->
  decode_wire P obj = Ok c ->
  setCipherJSON P data w
  = (Ok tt, {| kb := load c (kb w); rng_pos := rng_pos w; trace := trace w |}).
Proof.
  intros Hparse Hleg Hdec. unfold setCipherJSON.
  rewrite Hparse. simpl lift_lib.
  rewrite (bind_ok (ret obj) _ w obj w eq_refl).
  cbv zeta. rewrite Hleg. cbv beta iota.
  unfold decode_wire in Hdec.
  destruct (decodeBase64 P (Envelope.salt obj)) as [salt|?|] eqn:E1; try discriminate.
  destruct (decodeBase64 P (Envelope.iv obj)) as [iv|?|] eqn:E2; try discriminate.
  destruct (decodeBase64 P (Envelope.ct obj)) as [ct|?|] eqn:E3; try discriminate.
  simpl in Hdec.
  destruct (Envelope.keys obj) as [ks|] eqn:E4; try discriminate.
  destruct (ofor_push (decode_entry P) ks []) as [keys|?|] eqn:E5; try discriminate.
  simpl in Hdec. injection Hdec as <-.
  rewrite (bind_lift_ok (Ok salt) _ _ _ eq_refl).
  rewrite (bind_lift_ok (Ok iv) _ _ _ eq_refl).
  rewrite (bind_lift_ok (Ok ct) _ _ _ eq_refl).
  assert (for_push
            (fun e : KeyIv.t jsstring =>
               let* i := lift (decodeBase64 P (KeyIv.iv e)) in
               let* k := lift (decodeBase64 P (KeyIv.key e)) in
               ret (KeyIv.Build i k)) ks [] w = (Ok keys, w)) as Hloop.
  { rewrite (for_push_ext _ (fun e => lift (decode_entry P e))).
    - rewrite for_push_lift, E5. reflexivity.
    - intros e w0. unfold bind, lift, decode_entry.
      destruct (decodeBase64 P (KeyIv.iv e)); simpl; try reflexivity.
      destruct (decodeBase64 P (KeyIv.key e)); reflexivity. }
  rewrite (bind_ok _ _ _ _ _ Hloop).
  reflexivity.
Qed.

Lemma byte_of_N_to_N b : byte_of_N (Byte.to_N b) = b.
Proof. destruct b; reflexivity. Qed.

Lemma decode_encode P (L : Laws P) b :
  exists s, encodeBase64 P (U8 b) = Ok s /\ decodeBase64 P s = Ok (U8 b).
Proof.
  destruct (atob_btoa P L b) as (s & Hs & Hs'). exists s.
  unfold encodeBase64, decodeBase64. rewrite Hs, Hs'. split; [reflexivity|].
  do 2 f_equal. rewrite map_map. rewrite <- (map_id b) at 2.
  apply map_ext. intros x. apply byte_of_N_to_N.
Qed.

Lemma entries_roundtrip P (L : Laws P) ks :
  Forall entry_is_u8 ks ->
  forall acc acc',
  exists ws, ofor_push (encode_entry P) ks acc = Ok (acc ++ ws)
             /\ ofor_push (decode_entry P) ws acc' = Ok (acc' ++ ks).
Proof.
  induction 1 as [|e ks [[i Hi] [k Hk]] _ IH]; intros acc acc'.
  - exists []. simpl. by rewrite !app_nil_r.
  - destruct e as [ei ek]. simpl in Hi, Hk. subst.
    destruct (decode_encode P L i) as (si & Hsi & Hsi').
    destruct (decode_encode P L k) as (sk & Hsk & Hsk').
    destruct (IH (acc ++ [KeyIv.Build si sk]) (acc' ++ [KeyIv.Build (U8 i) (U8 k)]))
      as (ws & Hws & Hws').
    assert (encode_entry P (KeyIv.Build (U8 i) (U8 k)) = Ok (KeyIv.Build si sk)) as He
        by (unfold encode_entry; cbn [KeyIv.iv KeyIv.key]; rewrite Hsi, Hsk; reflexivity).
    assert (decode_entry P (KeyIv.Build si sk) = Ok (KeyIv.Build (U8 i) (U8 k))) as Hd
        by (unfold decode_entry; cbn [KeyIv.iv KeyIv.key]; rewrite Hsi', Hsk'; reflexivity).
    exists (KeyIv.Build si sk :: ws).
    rewrite !ofor_push_cons, He, Hd. cbn [obind].
    rewrite Hws, Hws', <- !app_assoc. split; reflexivity.
Qed.

(** The codec round trip: what [getCipherJSON] encodes, [setCipherJSON]
    decodes to the same envelope, classified the same way. *)
Lemma wire_roundtrip P (L : Laws P) c :
  bytes_envelope c ->
  exists obj, encode_wire P c = Ok obj
              /\ decode_wire P obj = Ok c
              /\ isLegacyFormat obj = isLegacyFormat c
              /\ Envelope.v obj = Envelope.v c
              /\ Envelope.mode obj = Envelope.mode c
              /\ option_map (@length _) (Envelope.keys obj)
                 = option_map (@length _) (Envelope.keys c).
Proof.
  intros ([s Hs] & [i Hi] & [t Ht] & ks & Hks & Hall).
  destruct (decode_encode P L s) as (ss & Hss & Hss').
  destruct (decode_encode P L i) as (si & Hsi & Hsi').
  destruct (decode_encode P L t) as (st & Hst & Hst').
  destruct (entries_roundtrip P L ks Hall [] []) as (ws & Hws & Hws').
  simpl in Hws, Hws'.
  eexists. unfold encode_wire. rewrite Hs, Hi, Ht, Hss, Hsi, Hst, Hks. simpl.
  rewrite Hws. simpl. split; [reflexivity|].
  unfold decode_wire. simpl. rewrite Hss', Hsi', Hst'. simpl.
  rewrite Hws'. simpl.
  split; [|split; [reflexivity|split; [reflexivity|split; [reflexivity|]]]].
  - destruct c; simpl in *. subst. reflexivity.
  - simpl. f_equal.
    apply ofor_push_length in Hws, Hws'. simpl in *. lia.
Qed.

(** ** Building the envelope *)

Lemma makeMetadataObject_run P w :
  makeMetadataObject P w
  = (Ok (metadata (kb w) (map (entropy P) (seq (rng_pos w) 12))),
     {| kb := kb w; rng_pos := rng_pos w + 12; trace := trace w ++ [EvRandom 12] |}).
Proof. reflexivity. Qed.

Lemma makeAESKey_run P w :
  makeAESKey P w
  = (Ok tt,
     {| kb := set_master (U8 (map (entropy P) (seq (rng_pos w) 32))) (kb w);
        rng_pos := rng_pos w + 32; trace := trace w ++ [EvRandom 32] |}).
Proof. reflexivity. Qed.

Lemma encrypt_run P key pt nonce aad w :
  encryptChaCha20Poly1305 P key pt (U8 nonce) aad w
  = (match chacha20poly1305_encrypt P key (U8 nonce) aad pt with
     | Some c => Ok (U8 c, U8 nonce)
     | None => Throw LibraryError
     end,
     {| kb := kb w; rng_pos := rng_pos w;
        trace := trace w ++ [EvSeal key pt (U8 nonce)] |}).
Proof.
  unfold encryptChaCha20Poly1305, bind, emit, lift_lib. simpl.
  destruct (chacha20poly1305_encrypt P key (U8 nonce) aad pt); reflexivity.
Qed.

Lemma bind_getRandomBytes {B} P n (f : list byte -> M B) w :
  bind (getRandomBytes P n) f w
  = f (map (entropy P) (seq (rng_pos w) n))
      {| kb := kb w; rng_pos := rng_pos w + n; trace := trace w ++ [EvRandom n] |}.
Proof. reflexivity. Qed.

Lemma bind_get {B} (f : keybearer -> M B) w : bind get f w = f (kb w) w.
Proof. reflexivity. Qed.

Lemma bind_modify {B} g (f : unit -> M B) w :
  bind (modify g) f w
  = f tt {| kb := g (kb w); rng_pos := rng_pos w; trace := trace w |}.
Proof. reflexivity. Qed.

Lemma bind_ret {A B} (a : A) (f : A -> M B) w : bind (ret a) f w = f a w.
Proof. reflexivity. Qed.

Lemma bind_emit {B} e (f : unit -> M B) w :
  bind (emit e) f w
  = f tt {| kb := kb w; rng_pos := rng_pos w; trace := trace w ++ [e] |}.
Proof. reflexivity. Qed.

Lemma kb_stable_wrap_key P key : kb_stable (wrap_key P key).
Proof.
  unfold wrap_key. repeat (apply kb_stable_bind; [|intros ?]); auto with kbstable.
Qed.

Lemma wrap_key_returns P (L : Laws P) master key w :
  _master (kb w) = U8 master -> length master = 32 -> key32 key ->
  returns (wrap_key P key) w (fun e w' => kb w' = kb w /\ wraps P master key e).
Proof.
  intros Hm Hlen (b & -> & Hb).
  destruct (seal_accepts P L b (map (entropy P) (seq (rng_pos w) 12)) master Hb)
    as [c Hc]; [by rewrite length_map, length_seq|].
  unfold wrap_key.
  eapply returns_intro.
  - rewrite bind_getRandomBytes, bind_get. cbn [kb].
    rewrite Hm. erewrite bind_ok; [reflexivity|].
    rewrite encrypt_run. cbn [rng_pos]. rewrite Hc. reflexivity.
  - cbn [kb fst snd]. split; [reflexivity|].
    exists b, (map (entropy P) (seq (rng_pos w) 12)), c. auto.
Qed.

Lemma wrap_loop_returns P (L : Laws P) master keys : forall acc w,
  _master (kb w) = U8 master -> length master = 32 -> Forall key32 keys ->
  returns (for_push (wrap_key P) keys acc) w
    (fun r w' => kb w' = kb w
                 /\ exists new, r = acc ++ new /\ Forall2 (wraps P master) keys new).
Proof.
  induction keys as [|key keys IH]; intros acc w Hm Hlen Hkeys.
  - eapply returns_intro; [reflexivity|]. split; [reflexivity|].
    exists []. rewrite app_nil_r. split; [reflexivity|constructor].
  - inversion Hkeys as [|? ? Hk Hks]; subst. simpl.
    apply returns_bind.
    eapply returns_mono; [apply (wrap_key_returns P L master); auto|].
    intros e w1 [Hkb He]. cbv beta.
    eapply returns_mono; [apply IH; auto; congruence|].
    intros r w2 (Hkb2 & new & -> & Hnew). cbv beta.
    split; [congruence|]. exists (e :: new).
    rewrite <- app_assoc. split; [reflexivity|]. by constructor.
Qed.

Lemma augment_unfold P fuel :
  augmentWithEncryptedKeys P fuel
  = (let* k := get in
     let* encKeys := for_push (wrap_key P) (_keys k) [] in
     match _cipherobj k with
     | None => throw TypeError
     | Some obj =>
         let* _ := modify (set_cipherobj (Some (Envelope.set_keys encKeys obj))) in
         let* shuffled := shuffle P fuel encKeys in
         modify (set_cipherobj (Some (Envelope.set_keys shuffled obj)))
     end).
Proof. reflexivity. Qed.

Lemma set_cipherobj_twice a b k :
  set_cipherobj a (set_cipherobj b k) = set_cipherobj a k.
Proof. reflexivity. Qed.

Lemma augment_returns P (L : Laws P) master obj w :
  fair_entropy P ->
  _master (kb w) = U8 master -> length master = 32 ->
  Forall key32 (_keys (kb w)) ->
  (Z.of_nat (length (_keys (kb w))) <= 4294967295)%Z ->
  _cipherobj (kb w) = Some obj ->
  returns_fuel (fun fuel => augmentWithEncryptedKeys P fuel) w
    (fun _ w' =>
       exists entries wrapped,
         kb w' = set_cipherobj (Some (Envelope.set_keys entries obj)) (kb w)
         /\ Permutation entries wrapped
         /\ Forall2 (wraps P master) (_keys (kb w)) wrapped).
Proof.
  intros Hfair Hm Hlen Hkeys Hmax Hobj.
  destruct (returns_elim _ _ _
              (wrap_loop_returns P L master (_keys (kb w)) [] w Hm Hlen Hkeys))
    as (encKeys & w1 & Hloop & Hkb1 & new & Hnew & Hwraps).
  simpl in Hnew. subst new.
  assert (length encKeys = length (_keys (kb w))) as Hlenk
      by (symmetry; eapply Forall2_length; eauto).
  destruct (shuffle_converges P encKeys
              {| kb := set_cipherobj (Some (Envelope.set_keys encKeys obj)) (kb w1);
                 rng_pos := rng_pos w1; trace := trace w1 |} Hfair)
    as (shuffled & w2 & [fuel0 Hconv] & Hkb2 & Hperm); [lia|].
  eexists tt, _. split.
  - exists fuel0. intros fuel Hf. rewrite augment_unfold.
    rewrite bind_get.
    rewrite (bind_ok _ _ _ _ _ Hloop).
    rewrite Hobj, bind_modify.
    rewrite (bind_ok _ _ _ _ _ (Hconv fuel Hf)).
    rewrite modify_run. reflexivity.
  - exists shuffled, encKeys. cbn [kb] in *.
    rewrite Hkb2, Hkb1, set_cipherobj_twice. auto.
Qed.

Lemma wraps_is_u8 P master key e : wraps P master key e -> entry_is_u8 e.
Proof.
  intros (k & n & c & _ & -> & _). split; [by exists n | by exists c].
Qed.

Lemma encryptPlaintext_unfold P fuel pt :
  encryptPlaintext P fuel pt
  = (let* p := makeMetadataObject P in
     let* k := get in
     let* result :=
       encryptChaCha20Poly1305 P (_master k)
         (if data_truthy pt then pt else _plaintext k) (Envelope.iv p) (U8 []) in
     let* _ := modify (set_cipherobj
                         (Some (Envelope.set_ct_iv (fst result) (snd result) p))) in
     let* _ := augmentWithEncryptedKeys P fuel in
     getCipherJSON P).
Proof. reflexivity. Qed.

(** The envelope of [encryptPlaintext], for an engine that holds a salt,
    a master key and derived keys. *)
Lemma encryptPlaintext_returns P (L : Laws P) salt master pt w :
  fair_entropy P ->
  _salt (kb w) = U8 salt ->
  _master (kb w) = U8 master -> length master = 32 ->
  Forall key32 (_keys (kb w)) ->
  (Z.of_nat (length (_keys (kb w))) <= 4294967295)%Z ->
  returns_fuel (fun fuel => encryptPlaintext P fuel (U8 pt)) w
    (fun json w' =>
       exists c obj,
         kb w' = set_cipherobj (Some c) (kb w)
         /\ sealed_for P (kb w) (_keys (kb w)) pt c
         /\ json = JSON_stringify P obj
         /\ encode_wire P c = Ok obj
         /\ decode_wire P obj = Ok c
         /\ isLegacyFormat obj = false).
Proof.
  intros Hfair Hsalt Hm Hlen Hkeys Hmax.
  set (nonce := map (entropy P) (seq (rng_pos w) 12)).
  destruct (seal_accepts P L master nonce pt Hlen) as [ct Hct];
    [by unfold nonce; rewrite length_map, length_seq|].
  set (p := Envelope.set_ct_iv (U8 ct) (U8 nonce) (metadata (kb w) nonce)).
  set (w3 := {| kb := set_cipherobj (Some p) (kb w); rng_pos := rng_pos w + 12;
                trace := (trace w ++ [EvRandom 12])
                           ++ [EvSeal (U8 master) (U8 pt) (U8 nonce)] |}).
  assert (forall fuel,
            encryptPlaintext P fuel (U8 pt) w
            = bind (augmentWithEncryptedKeys P fuel) (fun _ => getCipherJSON P) w3)
    as Hprefix.
  { intros fuel. rewrite encryptPlaintext_unfold.
    rewrite (bind_ok _ _ _ _ _ (makeMetadataObject_run P w)).
    rewrite bind_get. cbn [kb data_truthy]. rewrite Hm.
    erewrite bind_ok.
    2:{ cbn [Envelope.iv metadata]. rewrite encrypt_run. fold nonce.
        rewrite Hct. reflexivity. }
    rewrite bind_modify. reflexivity. }
  destruct (augment_returns P L master p w3 Hfair Hm Hlen Hkeys Hmax eq_refl)
    as ([] & w4 & [fuel0 Hconv] & entries & wrapped & Hkb4 & Hperm & Hwraps).
  set (c := Envelope.set_keys entries p).
  assert (_cipherobj (kb w4) = Some c) as Hc by (rewrite Hkb4; reflexivity).
  assert (bytes_envelope c) as Hbytes.
  { repeat split.
    - exists salt. exact Hsalt.
    - by exists nonce.
    - by exists ct.
    - exists entries. split; [reflexivity|].
      rewrite Hperm. eapply Forall2_Forall_r; [exact Hwraps|].
      apply Forall_forall. intros k _ e. apply wraps_is_u8. }
  destruct (wire_roundtrip P L c Hbytes) as (obj & Henc & Hdec & Hleg & _).
  exists (JSON_stringify P obj), w4. split.
  - exists fuel0. intros fuel Hf. rewrite Hprefix.
    rewrite (bind_ok _ _ _ _ _ (Hconv fuel Hf)).
    rewrite getCipherJSON_run, Hc, Henc. reflexivity.
  - exists c, obj. split; [rewrite Hkb4; reflexivity|].
    split; [|split; [reflexivity|split; [exact Henc|split; [exact Hdec|]]]].
    + exists master, nonce, ct, entries, wrapped. auto.
    + rewrite Hleg. reflexivity.
Qed.

(** The keys PBKDF2 derives for an engine that holds a byte-array salt. *)
Lemma derive_all P (L : Laws P) k salt combos :
  _salt k = U8 salt -> (0 < pbkdf2_iterations k)%Z ->
  exists ks, Forall2 (fun c key => derive P k c = Some key) combos ks
             /\ Forall key32 ks.
Proof.
  intros Hsalt Hiter. induction combos as [|c combos (ks & H1 & H2)].
  - exists []. split; constructor.
  - destruct (pbkdf2_accepts P L c salt (pbkdf2_iterations k) Hiter) as (b & Hb & Hlen).
    exists (U8 b :: ks). split; constructor; auto.
    + unfold derive. rewrite Hsalt. cbn [isArray]. rewrite andb_false_r.
      change (Z.of_nat aes_key_strength) with 32%Z. rewrite Hb. reflexivity.
    + by exists b.
Qed.

Lemma encryptWithPasswords_unfold P fuel passwords m :
  encryptWithPasswords P fuel passwords m
  = (let* _ := makeKeyCombinations P passwords m in
     let* _ := makeAESKey P in
     let* k := get in
     encryptPlaintext P fuel (_plaintext k)).
Proof. reflexivity. Qed.

Lemma encryptWithPasswords_returns P (L : Laws P) salt pt passwords (z : Z) w :
  fair_entropy P ->
  ready (kb w) salt pt ->
  (1 <= z)%Z ->
  (Z.of_nat (choose (length passwords) (Z.to_nat z)) <= 4294967295)%Z ->
  returns_fuel (fun fuel => encryptWithPasswords P fuel passwords (Some z)) w
    (fun json w' =>
       exists c obj keys master,
         kb w' = set_cipherobj (Some c) (keyed (kb w) passwords z keys master)
         /\ Forall2 (fun p key => derive P (kb w) p = Some key)
                    (combinations passwords (Z.to_nat z)) keys
         /\ sealed_for P (keyed (kb w) passwords z keys master) keys pt c
         /\ json = JSON_stringify P obj
         /\ encode_wire P c = Ok obj
         /\ decode_wire P obj = Ok c
         /\ isLegacyFormat obj = false).
Proof.
  intros Hfair (Hsalt & Hpt & Hiter) Hz Hmax.
  destruct (derive_all P L (kb w) salt (combinations passwords (Z.to_nat z))
              Hsalt Hiter) as (keys & Hkeys & Hk32).
  set (master := map (entropy P) (seq (rng_pos w) 32)).
  set (w2 := {| kb := keyed (kb w) passwords z keys master;
                rng_pos := rng_pos w + 32;
                trace := (trace w ++ map EvDerive (combinations passwords (Z.to_nat z)))
                           ++ [EvRandom 32] |}).
  assert (length keys = choose (length passwords) (Z.to_nat z)) as Hlen.
  { rewrite <- (Forall2_length _ _ _ Hkeys). unfold combinations.
    rewrite length_map, sublists_k_length, js_sort_length, length_map. reflexivity. }
  assert (_salt (kb w2) = U8 salt) as Hs2 by exact Hsalt.
  assert (_master (kb w2) = U8 master) as Hm2 by reflexivity.
  assert (length master = 32) as Hl2
      by (unfold master; by rewrite length_map, length_seq).
  assert (Forall key32 (_keys (kb w2))) as Hk2 by exact Hk32.
  assert (Z.of_nat (length (_keys (kb w2))) <= 4294967295)%Z as Hx2
      by (change (_keys (kb w2)) with keys; lia).
  destruct (encryptPlaintext_returns P L salt master pt w2 Hfair Hs2 Hm2 Hl2 Hk2 Hx2)
    as (json & w' & [fuel0 Hconv] & c & obj & H1 & H2 & H3 & H4 & H5 & H6).
  exists json, w'. split.
  - exists fuel0. intros fuel Hf. rewrite encryptWithPasswords_unfold.
    rewrite (bind_ok _ _ _ _ _ (makeKeyCombinations_ok P passwords z w keys Hz Hkeys)).
    rewrite (bind_ok _ _ _ _ _ (makeAESKey_run P _)).
    rewrite bind_get. cbn [kb set_master _plaintext set_keys set_nToUnlock set_nPasswords].
    rewrite Hpt. apply Hconv. exact Hf.
  - exists c, obj, keys, master. auto 10.
Qed.

(** ** The trial-decryption loops *)

Lemma scan_app {T} (f : T -> option jsdata) a b :
  scan f (a ++ b)
  = match scan f a with
    | (tried, Some m) => (tried, Some m)
    | (tried, None) => let (tried', res) := scan f b in (tried ++ tried', res)
    end.
Proof.
  induction a as [|t a IH]; simpl.
  - destruct (scan f b); reflexivity.
  - destruct (f t); [reflexivity|]. rewrite IH.
    destruct (scan f a) as [tried [m|]]; [reflexivity|].
    destruct (scan f b); reflexivity.
Qed.

Lemma scan_map {T U} (g : T -> U) (f : U -> option jsdata) ts :
  scan f (map g ts)
  = (map g (fst (scan (fun t => f (g t)) ts)), snd (scan (fun t => f (g t)) ts)).
Proof.
  induction ts as [|t ts IH]; simpl; [reflexivity|].
  destruct (f (g t)); [reflexivity|]. rewrite IH.
  destruct (scan (fun t => f (g t)) ts). reflexivity.
Qed.

(** Nothing opened: every trial was attempted and failed. *)
Lemma scan_all_fail {T} (f : T -> option jsdata) ts :
  Forall (fun t => f t = None) ts -> scan f ts = (ts, None).
Proof.
  induction 1 as [|t ts Ht _ IH]; simpl; [reflexivity|].
  rewrite Ht, IH. reflexivity.
Qed.

Lemma scan_none {T} (f : T -> option jsdata) ts tried :
  scan f ts = (tried, None) -> tried = ts /\ Forall (fun t => f t = None) ts.
Proof.
  revert tried. induction ts as [|t ts IH]; intros tried; simpl.
  - intros [= <-]. auto.
  - destruct (f t) eqn:E; [discriminate|].
    destruct (scan f ts) as [tr res]. intros [= <- ->].
    destruct (IH tr eq_refl) as [-> H]. auto.
Qed.

(** Something opened: the trials before it failed, it was the last one
    attempted, and it gave the master key. *)
Lemma scan_some {T} (f : T -> option jsdata) ts tried m :
  scan f ts = (tried, Some m) ->
  exists pre t post,
    ts = pre ++ t :: post /\ tried = pre ++ [t]
    /\ Forall (fun t => f t = None) pre /\ f t = Some m.
Proof.
  revert tried. induction ts as [|t ts IH]; intros tried; simpl; [discriminate|].
  destruct (f t) eqn:E.
  - intros [= <- ->]. exists [], t, ts. auto.
  - destruct (scan f ts) as [tr res]. intros [= <- ->].
    destruct (IH tr eq_refl) as (pre & u & post & -> & -> & Hpre & Hu).
    exists (t :: pre), u, post. repeat split; auto.
Qed.

Lemma decrypt_run P key ct nonce aad w :
  decryptChaCha20Poly1305 P key ct nonce aad w
  = (match chacha20poly1305_decrypt P key nonce aad ct with
     | Some p => Ok (U8 p)
     | None => Throw LibraryError
     end,
     {| kb := kb w; rng_pos := rng_pos w; trace := trace w ++ [EvOpen key ct nonce] |}).
Proof.
  unfold decryptChaCha20Poly1305, bind, emit, lift_lib. simpl.
  destruct (chacha20poly1305_decrypt P key nonce aad ct); reflexivity.
Qed.

Lemma decryptKeys_inner_run P key entries : forall w,
  decryptKeys_inner P key entries w
  = (Ok (found (snd (scan (open_v2 P key) entries))),
     {| kb := with_master (snd (scan (open_v2 P key) entries)) (kb w);
        rng_pos := rng_pos w;
        trace := trace w ++ map (fun e => open_event (key, e))
                                (fst (scan (open_v2 P key) entries)) |}).
Proof.
  induction entries as [|e entries IH]; intros w.
  - simpl. unfold ret. rewrite app_nil_r. destruct w; reflexivity.
  - cbn [decryptKeys_inner scan]. unfold bind at 1, try_catch, bind at 1.
    rewrite decrypt_run.
    assert (open_v2 P key e
            = U8 <$> chacha20poly1305_decrypt P key (KeyIv.iv e) (U8 []) (KeyIv.key e))
      as Ho by reflexivity.
    destruct (chacha20poly1305_decrypt P key (KeyIv.iv e) (U8 []) (KeyIv.key e))
      as [p|]; cbn in Ho; rewrite Ho.
    + reflexivity.
    + cbn [ret]. rewrite IH.
      destruct (scan (open_v2 P key) entries) as [tried res]. cbn.
      rewrite <- app_assoc. reflexivity.
Qed.

Lemma scan_ext {T} (f g : T -> option jsdata) ts :
  (forall t, f t = g t) -> scan f ts = scan g ts.
Proof.
  intros H. induction ts as [|t ts IH]; simpl; [reflexivity|].
  rewrite H, IH. reflexivity.
Qed.

Lemma cipherobj_keys_run w c entries :
  _cipherobj (kb w) = Some c -> Envelope.keys c = Some entries ->
  cipherobj_keys w = (Ok (c, entries), w).
Proof. intros H1 H2. unfold cipherobj_keys, bind, get. simpl. rewrite H1, H2. reflexivity. Qed.

Lemma with_master_cipherobj res k :
  _cipherobj (with_master res k) = _cipherobj k.
Proof. destruct res; reflexivity. Qed.

Lemma decryptKeys_outer_run P c entries keys : forall w,
  _cipherobj (kb w) = Some c -> Envelope.keys c = Some entries ->
  decryptKeys_outer P keys w
  = (Ok (found (snd (scan (fun t => open_v2 P (fst t) (snd t)) (trials keys entries)))),
     {| kb := with_master
                (snd (scan (fun t => open_v2 P (fst t) (snd t)) (trials keys entries)))
                (kb w);
        rng_pos := rng_pos w;
        trace := trace w ++ map open_event
                   (fst (scan (fun t => open_v2 P (fst t) (snd t))
                              (trials keys entries))) |}).
Proof.
  induction keys as [|key keys IH]; intros w Hc Hk.
  - simpl. unfold ret. rewrite app_nil_r. destruct w; reflexivity.
  - cbn [decryptKeys_outer].
    rewrite (bind_ok _ _ _ _ _ (cipherobj_keys_run w c entries Hc Hk)).
    cbn [snd]. unfold bind at 1. rewrite decryptKeys_inner_run.
    change (trials (key :: keys) entries)
      with (map (pair key) entries ++ trials keys entries).
    rewrite scan_app, scan_map. cbn [fst snd].
    destruct (scan (open_v2 P key) entries) as [tried [m|]] eqn:E; cbn [found fst snd].
    + rewrite map_map. reflexivity.
    + rewrite IH by (cbn; auto).
      destruct (scan _ (trials keys entries)) as [tried' res']. cbn.
      rewrite map_app, map_map, <- app_assoc. reflexivity.
Qed.

Lemma decryptKeyLegacy_run P c key e w :
  decryptKeyLegacy P c key e w
  = (Ok (default DNull (open_legacy P c key e)),
     {| kb := kb w; rng_pos := rng_pos w;
        trace := if sjcl_defined P then trace w ++ [open_event (key, e)]
                 else trace w |}).
Proof.
  unfold decryptKeyLegacy, open_legacy, try_catch.
  destruct (sjcl_defined P).
  - unfold bind, emit, lift_lib. simpl.
    destruct (sjcl_mode_decrypt P _ _ _ _ _ _ _); reflexivity.
  - destruct w; reflexivity.
Qed.

Lemma open_legacy_truthy P c key e :
  data_truthy (default DNull (open_legacy P c key e)) = found (open_legacy P c key e).
Proof.
  unfold open_legacy. destruct (sjcl_defined P); [|reflexivity].
  destruct (sjcl_mode_decrypt P _ _ _ _ _ _ _); reflexivity.
Qed.

Lemma decryptKeysLegacy_inner_run P c key entries : forall w,
  decryptKeysLegacy_inner P c key entries w
  = (Ok (found (snd (scan (open_legacy P c key) entries))),
     {| kb := with_master (snd (scan (open_legacy P c key) entries)) (kb w);
        rng_pos := rng_pos w;
        trace := if sjcl_defined P
                 then trace w ++ map (fun e => open_event (key, e))
                                     (fst (scan (open_legacy P c key) entries))
                 else trace w |}).
Proof.
  induction entries as [|e entries IH]; intros w.
  - simpl. unfold ret. rewrite app_nil_r. destruct (sjcl_defined P), w; reflexivity.
  - cbn [decryptKeysLegacy_inner scan].
    rewrite (bind_ok _ _ _ _ _ (decryptKeyLegacy_run P c key e w)).
    rewrite open_legacy_truthy.
    destruct (open_legacy P c key e) as [m|] eqn:E; cbn [found default].
    + rewrite bind_modify. cbn. destruct (sjcl_defined P); reflexivity.
    + rewrite IH. destruct (scan (open_legacy P c key) entries) as [tried res]. cbn.
      destruct (sjcl_defined P); [|reflexivity].
      rewrite <- app_assoc. reflexivity.
Qed.

Lemma decryptKeysLegacy_outer_run P c entries keys : forall w,
  _cipherobj (kb w) = Some c -> Envelope.keys c = Some entries ->
  decryptKeysLegacy_outer P keys w
  = (Ok (found (snd (scan (fun t => open_legacy P c (fst t) (snd t))
                          (trials keys entries)))),
     {| kb := with_master
                (snd (scan (fun t => open_legacy P c (fst t) (snd t))
                           (trials keys entries)))
                (kb w);
        rng_pos := rng_pos w;
        trace := if sjcl_defined P
                 then trace w ++ map open_event
                        (fst (scan (fun t => open_legacy P c (fst t) (snd t))
                                   (trials keys entries)))
                 else trace w |}).
Proof.
  induction keys as [|key keys IH]; intros w Hc Hk.
  - simpl. unfold ret. rewrite app_nil_r. destruct (sjcl_defined P), w; reflexivity.
  - cbn [decryptKeysLegacy_outer].
    rewrite (bind_ok _ _ _ _ _ (cipherobj_keys_run w c entries Hc Hk)).
    cbn [fst snd]. unfold bind at 1. rewrite decryptKeysLegacy_inner_run.
    change (trials (key :: keys) entries)
      with (map (pair key) entries ++ trials keys entries).
    rewrite scan_app, scan_map. cbn [fst snd].
    destruct (scan (open_legacy P c key) entries) as [tried [m|]] eqn:E;
      cbn [found fst snd].
    + rewrite map_map. reflexivity.
    + rewrite IH by (cbn; auto).
      destruct (scan _ (trials keys entries)) as [tried' res']. cbn.
      destruct (sjcl_defined P); [|reflexivity].
      rewrite map_app, map_map, <- app_assoc. reflexivity.
Qed.

(** [decryptKeys], as a scan of the trials. *)
Lemma decryptKeys_run P c entries w :
  _cipherobj (kb w) = Some c -> Envelope.keys c = Some entries ->
  decryptKeys P w
  = (Ok (found (snd (scan (open_with P c) (trials (_keys (kb w)) entries)))),
     {| kb := with_master
                (snd (scan (open_with P c) (trials (_keys (kb w)) entries))) (kb w);
        rng_pos := rng_pos w;
        trace := trace w ++ map open_event
                   (fst (scan (open_with P c) (trials (_keys (kb w)) entries))) |}).
Proof.
  intros Hc Hk. unfold decryptKeys.
  assert (legacy_dispatch P w = (Ok (uses_legacy P c), w)) as Hd.
  { unfold legacy_dispatch, uses_legacy. destruct (sjcl_defined P); [|reflexivity].
    rewrite bind_get, Hc. reflexivity. }
  rewrite (bind_ok _ _ _ _ _ Hd).
  destruct (uses_legacy P c) eqn:Hu.
  - unfold decryptKeysLegacy. rewrite bind_get.
    rewrite (decryptKeysLegacy_outer_run P c entries _ w Hc Hk).
    assert (sjcl_defined P = true) as ->
        by (unfold uses_legacy in Hu; by apply andb_true_iff in Hu as [? _]).
    rewrite (scan_ext (open_with P c) (fun t => open_legacy P c (fst t) (snd t)));
      [reflexivity|].
    intros t. unfold open_with. rewrite Hu. reflexivity.
  - rewrite bind_get.
    rewrite (decryptKeys_outer_run P c entries _ w Hc Hk).
    rewrite (scan_ext (open_with P c) (fun t => open_v2 P (fst t) (snd t)));
      [reflexivity|].
    intros t. unfold open_with. rewrite Hu. reflexivity.
Qed.

(** C6. The trial-decryption loop.  [decryptKeys] tries the wrapped keys
    with the derived keys in loop order.  It returns false exactly when
    no trial opens, and then every trial was attempted (a failure never
    ends the loop) and the engine is as before; it returns true exactly
    when some trial opens, and then the trials attempted are the failed
    ones before the first that opens and that one, whose master key is
    adopted. *)
Theorem decryptKeys_trial_loop :
  forall (P : Platform) (w : world) (c : cipherobj) (entries : list (KeyIv.t jsdata)),
    _cipherobj (kb w) = Some c ->
    Envelope.keys c = Some entries ->
    exists b w',
      decryptKeys P w = (Ok b, w')
      /\ ((b = false
           /\ Forall (fun t => open_with P c t = None) (trials (_keys (kb w)) entries)
           /\ kb w' = kb w
           /\ extends w w' (map open_event (trials (_keys (kb w)) entries)))
          \/ (b = true
              /\ exists pre t post m,
                   trials (_keys (kb w)) entries = pre ++ t :: post
                   /\ Forall (fun t => open_with P c t = None) pre
                   /\ open_with P c t = Some m
                   /\ kb w' = set_master m (kb w)
                   /\ extends w w' (map open_event (pre ++ [t])))).
Proof.
  intros P w c entries Hc Hk.
  rewrite (decryptKeys_run P c entries w Hc Hk).
  destruct (scan (open_with P c) (trials (_keys (kb w)) entries)) as [tried [m|]] eqn:E.
  - eexists _, _. split; [reflexivity|]. right. split; [reflexivity|].
    apply scan_some in E as (pre & t & post & H1 & -> & H3 & H4).
    exists pre, t, post, m. repeat split; auto.
  - eexists _, _. split; [reflexivity|]. left. split; [reflexivity|].
    apply scan_none in E as [-> H]. repeat split; auto.
Qed.

Lemma cipherobj_keys_cases w :
  (exists c entries, cipherobj_keys w = (Ok (c, entries), w))
  \/ cipherobj_keys w = (Throw TypeError, w).
Proof.
  unfold cipherobj_keys. rewrite bind_get.
  destruct (_cipherobj (kb w)) as [c|]; [|right; reflexivity].
  destruct (Envelope.keys c) as [ks|]; [left; eauto | right; reflexivity].
Qed.

Lemma decryptKeys_outer_keeps P keys : forall w,
  fst (decryptKeys_outer P keys w) = Ok true
  \/ kb (snd (decryptKeys_outer P keys w)) = kb w.
Proof.
  induction keys as [|key keys IH]; intros w; [right; reflexivity|].
  cbn [decryptKeys_outer].
  destruct (cipherobj_keys_cases w) as [(c & entries & Hck)|Hck].
  2:{ rewrite (bind_throw _ _ _ _ _ Hck). right. reflexivity. }
  rewrite (bind_ok _ _ _ _ _ Hck). cbn [snd].
  rewrite (bind_ok _ _ _ _ _ (decryptKeys_inner_run P key entries w)).
  destruct (scan (open_v2 P key) entries) as [tried [m|]]; cbn [found snd fst with_master].
  - left. reflexivity.
  - match goal with |- context [decryptKeys_outer P keys ?w1] =>
      destruct (IH w1) as [H|H]; [left; exact H | right; rewrite H; reflexivity] end.
Qed.

Lemma decryptKeysLegacy_outer_keeps P keys : forall w,
  fst (decryptKeysLegacy_outer P keys w) = Ok true
  \/ kb (snd (decryptKeysLegacy_outer P keys w)) = kb w.
Proof.
  induction keys as [|key keys IH]; intros w; [right; reflexivity|].
  cbn [decryptKeysLegacy_outer].
  destruct (cipherobj_keys_cases w) as [(c & entries & Hck)|Hck].
  2:{ rewrite (bind_throw _ _ _ _ _ Hck). right. reflexivity. }
  rewrite (bind_ok _ _ _ _ _ Hck). cbn [fst snd].
  rewrite (bind_ok _ _ _ _ _ (decryptKeysLegacy_inner_run P c key entries w)).
  destruct (scan (open_legacy P c key) entries) as [tried [m|]];
    cbn [found snd fst with_master].
  - left. reflexivity.
  - match goal with |- context [decryptKeysLegacy_outer P keys ?w1] =>
      destruct (IH w1) as [H|H]; [left; exact H | right; rewrite H; reflexivity] end.
Qed.

(** C10. Failure atomicity of the key trial: when [decryptKeys] or
    [decryptKeysLegacy] returns false, [keybearer._master] is what it
    was before the call. *)
Theorem failed_trial_keeps_master :
  forall (P : Platform) (w w' : world),
    (decryptKeys P w = (Ok false, w') -> _master (kb w') = _master (kb w))
    /\ (decryptKeysLegacy P w = (Ok false, w') -> _master (kb w') = _master (kb w)).
Proof.
  intros P w w'. split; intros H.
  - unfold decryptKeys in H. unfold bind at 1 in H.
    assert (exists r, legacy_dispatch P w = (r, w)) as [r Hr].
    { unfold legacy_dispatch. destruct (sjcl_defined P); [|eexists; reflexivity].
      rewrite bind_get. destruct (_cipherobj (kb w)); eexists; reflexivity. }
    rewrite Hr in H. destruct r as [[]|e|]; try discriminate.
    + unfold decryptKeysLegacy in H. rewrite bind_get in H.
      destruct (decryptKeysLegacy_outer_keeps P (_keys (kb w)) w) as [Ht|Hk];
        rewrite H in *; simpl in *; congruence.
    + rewrite bind_get in H.
      destruct (decryptKeys_outer_keeps P (_keys (kb w)) w) as [Ht|Hk];
        rewrite H in *; simpl in *; congruence.
  - unfold decryptKeysLegacy in H. rewrite bind_get in H.
    destruct (decryptKeysLegacy_outer_keeps P (_keys (kb w)) w) as [Ht|Hk];
      rewrite H in *; simpl in *; congruence.
Qed.

(** ** Round trip *)

Lemma derive_ext P k k' c :
  _salt k = _salt k' -> pbkdf2_iterations k = pbkdf2_iterations k' ->
  derive P k c = derive P k' c.
Proof. intros H1 H2. unfold derive. rewrite H1, H2. reflexivity. Qed.

(** The one combination of the supplied passwords is among those of the
    full list. *)
Lemma supplied_combination passwords supplied :
  submseteq supplied passwords ->
  combinations supplied (length supplied)
  = [join_space (js_sort (map normalizeString supplied))]
  /\ join_space (js_sort (map normalizeString supplied))
     ∈ combinations passwords (length supplied).
Proof.
  intros Hsub. unfold combinations. split.
  - rewrite <- (length_map normalizeString supplied) at 1.
    rewrite <- (js_sort_length (map normalizeString supplied)) at 1.
    rewrite sublists_k_all. reflexivity.
  - apply list_elem_of_fmap. eexists. split; [reflexivity|].
    rewrite <- (length_map normalizeString supplied).
    rewrite <- (js_sort_length (map normalizeString supplied)).
    apply sublists_k_complete.
    apply sorted_submseteq_sublist; try apply js_sort_sorted.
    rewrite !js_sort_perm. by apply fmap_submseteq.
Qed.

Lemma Forall2_elem_of_l {A B} (R : A -> B -> Prop) l k x :
  Forall2 R l k -> x ∈ l -> exists y, y ∈ k /\ R x y.
Proof.
  induction 1 as [|a b l k Hab _ IH]; intros Hx.
  - by apply elem_of_nil in Hx.
  - apply elem_of_cons in Hx as [->|Hx].
    + exists b. split; [left|exact Hab].
    + destruct (IH Hx) as (y & Hy & HR). exists y. split; [by right|exact HR].
Qed.

Lemma Forall2_elem_of_r {A B} (R : A -> B -> Prop) l k y :
  Forall2 R l k -> y ∈ k -> exists x, x ∈ l /\ R x y.
Proof.
  induction 1 as [|a b l k Hab _ IH]; intros Hy.
  - by apply elem_of_nil in Hy.
  - apply elem_of_cons in Hy as [->|Hy].
    + exists a. split; [left|exact Hab].
    + destruct (IH Hy) as (x & Hx & HR). exists x. split; [by right|exact HR].
Qed.

Lemma scan_hit_elem {T} (f : T -> option jsdata) ts tried m :
  scan f ts = (tried, Some m) -> exists t, t ∈ ts /\ f t = Some m.
Proof.
  intros (pre & t & post & -> & _ & _ & Ht)%scan_some.
  exists t. split; [|exact Ht]. apply elem_of_app. right. left.
Qed.

(** With the derived key of one combination, the scan of a well-built
    envelope ends on the master key. *)
Lemma scan_finds_master P (L : Laws P) master keys wrapped entries key :
  Forall2 (wraps P master) keys wrapped ->
  Permutation entries wrapped ->
  key ∈ keys ->
  snd (scan (fun t => open_v2 P (fst t) (snd t)) (trials [key] entries))
  = Some (U8 master).
Proof.
  intros Hwraps Hperm Hkey.
  destruct (Forall2_elem_of_l _ _ _ _ Hwraps Hkey) as (e & He & k & n & c & -> & -> & Hc).
  rewrite <- Hperm in He.
  destruct (scan _ (trials [U8 k] entries)) as [tried [m|]] eqn:E; cbn [snd].
  - apply scan_hit_elem in E as ([k0 e0] & Hin & Hopen).
    unfold trials in Hin. simpl in Hin. rewrite app_nil_r in Hin.
    apply list_elem_of_fmap in Hin as (e1 & [= -> ->] & He1).
    rewrite Hperm in He1.
    destruct (Forall2_elem_of_r _ _ _ _ Hwraps He1)
      as (key' & _ & k' & n' & c' & -> & -> & Hc').
    unfold open_v2 in Hopen. cbn [fst snd KeyIv.iv KeyIv.key] in Hopen.
    destruct (chacha20poly1305_decrypt P (U8 k) (U8 n') (U8 []) (U8 c'))
      as [p|] eqn:Hp; [|discriminate].
    rewrite (open_binding P L k' k n' master c' p Hc' Hp) in Hopen.
    cbn in Hopen. congruence.
  - apply scan_none in E as [_ Hall]. rewrite Forall_forall in Hall.
    specialize (Hall (U8 k, KeyIv.Build (U8 n) (U8 c))).
    unfold open_v2 in Hall. cbn [fst snd KeyIv.iv KeyIv.key] in Hall.
    rewrite (open_sealed P L k n master c Hc) in Hall.
    cbn in Hall. exfalso.
    assert (Some (U8 master) = None) as Hn; [|discriminate].
    apply Hall. unfold trials. simpl. rewrite app_nil_r.
    apply list_elem_of_fmap. eauto.
Qed.

Lemma decryptCiphertext_current P c w p :
  _cipherobj (kb w) = Some c ->
  isLegacyFormat c = false ->
  chacha20poly1305_decrypt P (_master (kb w)) (Envelope.iv c) (U8 []) (Envelope.ct c)
  = Some p ->
  decryptCiphertext P w
  = (Ok tt,
     {| kb := set_plaintext (U8 p) (kb w); rng_pos := rng_pos w;
        trace := trace w ++ [EvOpen (_master (kb w)) (Envelope.ct c) (Envelope.iv c)] |}).
Proof.
  intros Hc Hleg Hp. unfold decryptCiphertext.
  assert (legacy_dispatch P w = (Ok false, w)) as Hd.
  { unfold legacy_dispatch. destruct (sjcl_defined P); [|reflexivity].
    rewrite bind_get, Hc, Hleg. reflexivity. }
  rewrite (bind_ok _ _ _ _ _ Hd), bind_get, Hc.
  cbn [negb]. erewrite bind_ok; [|rewrite decrypt_run, Hp; reflexivity].
  reflexivity.
Qed.

Lemma open_envelope_returns P (L : Laws P) json obj c k0 salt keys pt
    passwords supplied (z : Z) wd :
  JSON_parse P json = Some obj ->
  decode_wire P obj = Ok c ->
  isLegacyFormat obj = false ->
  sealed_for P k0 keys pt c ->
  _salt k0 = U8 salt ->
  Forall2 (fun p key => derive P k0 p = Some key)
          (combinations passwords (Z.to_nat z)) keys ->
  (1 <= z)%Z ->
  submseteq supplied passwords ->
  length supplied = Z.to_nat z ->
  exists wd', open_envelope P json supplied (Some z) wd = (Ok (Some (U8 pt)), wd').
Proof.
  intros Hparse Hdec Hleg Hsealed Hsalt Hkeys Hz Hsub Hlen.
  destruct Hsealed as (master & nonce & ct & entries & wrapped
                       & Hc & Hmlen & Hct & Hperm & Hwraps).
  assert (Envelope.salt c = _salt k0) as Hcs by (subst c; reflexivity).
  assert (Envelope.iter c = pbkdf2_iterations k0) as Hci by (subst c; reflexivity).
  assert (Envelope.keys c = Some entries) as Hck by (subst c; reflexivity).
  assert (Envelope.ct c = U8 ct) as Hcc by (subst c; reflexivity).
  assert (Envelope.iv c = U8 nonce) as Hcn by (subst c; reflexivity).
  assert (isLegacyFormat c = false) as Hcl by (subst c; reflexivity).
  (* the one key of the supplied passwords *)
  destruct (supplied_combination passwords supplied Hsub) as [Hone Hin].
  rewrite Hlen in Hone, Hin.
  set (target := join_space (js_sort (map normalizeString supplied))) in *.
  destruct (Forall2_elem_of_l _ _ _ _ Hkeys Hin) as (key & Hkey & Hderive).
  (* setCipherJSON *)
  unfold open_envelope.
  rewrite (bind_ok _ _ _ _ _ (setCipherJSON_current P json obj c wd Hparse Hleg Hdec)).
  (* makeKeyCombinations *)
  erewrite bind_ok.
  2:{ apply (makeKeyCombinations_ok P supplied z _ [key] Hz).
      rewrite Hone. constructor; [|constructor].
      rewrite <- Hderive. apply derive_ext; cbn; congruence. }
  (* decryptKeys *)
  erewrite bind_ok.
  2:{ apply (decryptKeys_run P c entries); [reflexivity | exact Hck]. }
  cbn [kb _keys set_keys].
  assert (forall t, open_with P c t = open_v2 P (fst t) (snd t)) as Hopen.
  { intros t. unfold open_with, uses_legacy. rewrite Hcl, andb_false_r. reflexivity. }
  rewrite (scan_ext _ _ _ Hopen).
  rewrite (scan_finds_master P L master keys wrapped entries key Hwraps Hperm Hkey).
  cbn [found with_master].
  (* decryptCiphertext *)
  erewrite bind_ok.
  2:{ apply (decryptCiphertext_current P c _ pt); [reflexivity | exact Hcl |].
      cbn [kb _master set_master]. rewrite Hcc, Hcn.
      apply (open_sealed P L master nonce pt ct Hct). }
  eexists. reflexivity.
Qed.

Lemma choose_le_pow2 n k : choose n k <= 2 ^ n.
Proof.
  revert k. induction n as [|n IH]; intros [|k]; simpl; try lia.
  - pose proof (Nat.pow_nonzero 2 n). lia.
  - pose proof (IH k). pose proof (IH (S k)). lia.
Qed.

(** C1. Round trip: with libraries that keep their contract (PBKDF2 and
    the AEAD accept well-formed input, a sealed box opens under its key
    and to nothing else, base64 and JSON text decode to what was
    encoded) and entropy on which rejection sampling ends, encrypting
    any plaintext under any [N <= 8] passwords with any threshold
    [1 <= M <= N] produces an envelope, and decrypting that envelope
    with any [M] of the passwords, in any order, from any engine state,
    recovers exactly the plaintext. *)
Theorem round_trip :
  forall (P : Platform) (plaintext : list byte) (fn ft : option jsstring)
         (passwords supplied : list jsstring) (M : Z) (w : world),
    Laws P -> fair_entropy P ->
    (0 < pbkdf2_iterations (kb w))%Z ->
    (1 <= M <= Z.of_nat (length passwords))%Z ->
    length passwords <= 8 ->
    submseteq supplied passwords ->
    Z.of_nat (length supplied) = M ->
    exists envelope w',
      converges (fun fuel => build_envelope P fuel plaintext fn ft passwords (Some M))
                w envelope w'
      /\ forall wd, exists wd',
           open_envelope P envelope supplied (Some M) wd
           = (Ok (Some (U8 plaintext)), wd').
Proof.
  intros P pt fn ft passwords supplied z w L Hfair Hiter Hz HN Hsub Hlen.
  set (salt := map (entropy P) (seq (rng_pos w) salt_length)).
  assert (exists w1, (let* _ := makeSalt P in setPlaintext pt fn ft) w = (Ok true, w1)
                     /\ ready (kb w1) salt pt) as (w1 & Hrun & Hready).
  { unfold makeSalt, setPlaintext.
    rewrite (bind_ok _ _ _ _ _ (bind_getRandomBytes P salt_length _ w)).
    rewrite !bind_modify.
    destruct fn as [[|? ?]|], ft as [[|? ?]|]; eexists; (split; [reflexivity|]);
      repeat split; exact Hiter. }
  destruct (encryptWithPasswords_returns P L salt pt passwords z w1 Hfair Hready)
    as (json & w' & [fuel0 Hconv] & c & obj & keys & master
        & Hkb & Hkeys & Hsealed & -> & Henc & Hdec & Hleg); [lia| |].
  { pose proof (choose_le_pow2 (length passwords) (Z.to_nat z)).
    assert (2 ^ length passwords <= 2 ^ 8) by (apply Nat.pow_le_mono_r; lia).
    change (2 ^ 8) with 256 in *. lia. }
  exists (JSON_stringify P obj), w'. split.
  - exists fuel0. intros fuel Hf. unfold build_envelope.
    unfold bind at 1.
    change (bind (makeSalt P) (fun _ => setPlaintext pt fn ft) w = (Ok true, w1)) in Hrun.
    unfold bind in Hrun at 1.
    destruct (makeSalt P w) as [[[]|e|] w0]; try discriminate.
    rewrite (bind_ok _ _ _ _ _ Hrun). apply Hconv. exact Hf.
  - intros wd.
    destruct Hready as (Hsalt & _ & _).
    eapply (open_envelope_returns P L); eauto.
    + apply (parse_stringify P L).
    + lia.
    + lia.
Qed.

(** ** What every envelope built has *)

Lemma for_push_length {A B} (body : A -> M B) l : forall acc w r w',
  for_push body l acc w = (Ok r, w') -> length r = length acc + length l.
Proof.
  induction l as [|a l IH]; intros acc w r w'; simpl.
  - intros [= <- _]. lia.
  - intros (b & w1 & _ & H)%bind_ok_inv. apply IH in H.
    rewrite length_app in H. simpl in *. lia.
Qed.

Lemma augment_inv P fuel w w' :
  augmentWithEncryptedKeys P fuel w = (Ok tt, w') ->
  exists obj entries,
    _cipherobj (kb w) = Some obj
    /\ kb w' = set_cipherobj (Some (Envelope.set_keys entries obj)) (kb w)
    /\ length entries = length (_keys (kb w)).
Proof.
  rewrite augment_unfold, bind_get.
  intros (encKeys & w1 & Hloop & H)%bind_ok_inv.
  pose proof (for_push_length _ _ _ _ _ _ Hloop) as Hlen. simpl in Hlen.
  assert (kb w1 = kb w) as Hkb1.
  { eapply kb_stable_run; [|exact Hloop].
    apply kb_stable_for_push. apply kb_stable_wrap_key. }
  destruct (_cipherobj (kb w)) as [obj|]; [|discriminate].
  rewrite bind_modify in H.
  apply bind_ok_inv in H as (shuffled & w2 & Hsh & H).
  pose proof (kb_stable_run _ _ _ _ (kb_stable_shuffle P fuel encKeys) Hsh) as Hkb2.
  pose proof (ensures_elim _ _ _ _ _ (shuffle_Permutation P fuel encKeys _) Hsh) as Hperm.
  cbn in Hperm. rewrite modify_run in H. injection H as <-.
  exists obj, shuffled. split; [reflexivity|]. cbn [kb] in *.
  rewrite Hkb2, Hkb1. split; [reflexivity|].
  rewrite (Permutation_length Hperm). exact Hlen.
Qed.

Lemma encode_wire_inv P c obj :
  encode_wire P c = Ok obj ->
  Envelope.v obj = Envelope.v c
  /\ Envelope.mode obj = Envelope.mode c
  /\ exists ks ws, Envelope.keys c = Some ks /\ Envelope.keys obj = Some ws
                   /\ length ws = length ks.
Proof.
  unfold encode_wire.
  destruct (encodeBase64 P (Envelope.salt c)); try discriminate.
  destruct (encodeBase64 P (Envelope.iv c)); try discriminate.
  destruct (encodeBase64 P (Envelope.ct c)); try discriminate. simpl.
  destruct (Envelope.keys c) as [ks|]; try discriminate.
  destruct (ofor_push (encode_entry P) ks []) as [ws|?|] eqn:E; try discriminate.
  simpl. intros [= <-]. simpl. split; [reflexivity|]. split; [reflexivity|].
  exists ks, ws. apply ofor_push_length in E. auto.
Qed.

(** Whenever [encryptPlaintext] returns, what it returns is the text of
    an envelope of version 2 and mode chacha20poly1305 with one wrapped
    key per derived key. *)
Lemma encryptPlaintext_inv P fuel pt w json w' :
  encryptPlaintext P fuel pt w = (Ok json, w') ->
  exists obj ks,
    json = JSON_stringify P obj
    /\ Envelope.v obj = JNum 2
    /\ Envelope.mode obj = JStr CHACHA20POLY1305
    /\ Envelope.keys obj = Some ks
    /\ length ks = length (_keys (kb w)).
Proof.
  rewrite encryptPlaintext_unfold.
  rewrite (bind_ok _ _ _ _ _ (makeMetadataObject_run P w)), bind_get.
  intros (result & w2 & Henc & H)%bind_ok_inv.
  pose proof (kb_stable_run _ _ _ _ (kb_stable_encrypt P _ _ _ _) Henc) as Hkb2.
  rewrite bind_modify in H.
  apply bind_ok_inv in H as ([] & w3 & Haug & H).
  apply augment_inv in Haug as (obj0 & entries & Hobj & Hkb3 & Hlen).
  cbn [kb _cipherobj set_cipherobj _keys] in Hobj, Hkb3, Hlen.
  injection Hobj as <-.
  rewrite getCipherJSON_run, Hkb3 in H. cbn [_cipherobj set_cipherobj] in H.
  destruct (encode_wire P _) as [obj|?|] eqn:E; try discriminate.
  injection H as <- <-.
  apply encode_wire_inv in E as (Hv & Hm & ks & ws & Hks & Hws & Hl).
  cbn in Hks. injection Hks as <-.
  exists obj, ws. repeat split; auto.
  rewrite Hl, Hlen, Hkb2. reflexivity.
Qed.

Lemma encryptWithPasswords_inv P fuel passwords m w json w' :
  encryptWithPasswords P fuel passwords m w = (Ok json, w') ->
  exists obj ks z,
    m = Some z /\ (1 <= z)%Z
    /\ json = JSON_stringify P obj
    /\ Envelope.v obj = JNum 2
    /\ Envelope.mode obj = JStr CHACHA20POLY1305
    /\ Envelope.keys obj = Some ks
    /\ length ks = choose (length passwords) (Z.to_nat z).
Proof.
  rewrite encryptWithPasswords_unfold.
  intros (keys & w1 & Hkeys & H)%bind_ok_inv.
  apply makeKeyCombinations_inv in Hkeys as (z & -> & Hz & Hder & ->).
  rewrite (bind_ok _ _ _ _ _ (makeAESKey_run P _)), bind_get in H.
  apply encryptPlaintext_inv in H as (obj & ks & -> & Hv & Hm & Hks & Hlen).
  exists obj, ks, z. repeat split; auto.
  rewrite Hlen. cbn. rewrite <- (Forall2_length _ _ _ Hder).
  unfold combinations.
  rewrite length_map, sublists_k_length, js_sort_length, length_map. reflexivity.
Qed.

(** C2. Wrapped-key count: for [1 <= M <= N], every envelope that
    [encryptWithPasswords] returns has a keys array of length C(N, M);
    and with libraries that keep their contract, fair entropy and an
    engine that holds a salt and a plaintext, it does return one. *)
Theorem wrapped_key_count :
  forall (P : Platform) (passwords : list jsstring) (M : Z) (w : world),
    (1 <= M <= Z.of_nat (length passwords))%Z ->
    (forall fuel json w',
        encryptWithPasswords P fuel passwords (Some M) w = (Ok json, w') ->
        exists obj ks,
          json = JSON_stringify P obj
          /\ Envelope.keys obj = Some ks
          /\ length ks = choose (length passwords) (Z.to_nat M))
    /\ (Laws P -> fair_entropy P ->
        (exists salt plaintext, ready (kb w) salt plaintext) ->
        (Z.of_nat (choose (length passwords) (Z.to_nat M)) <= 4294967295)%Z ->
        exists json w',
          converges (fun fuel => encryptWithPasswords P fuel passwords (Some M))
                    w json w').
Proof.
  intros P passwords z w Hz. split.
  - intros fuel json w' H.
    apply encryptWithPasswords_inv in H
      as (obj & ks & z' & [= <-] & _ & -> & _ & _ & Hks & Hlen).
    exists obj, ks. auto.
  - intros L Hfair (salt & pt & Hready) Hmax.
    destruct (encryptWithPasswords_returns P L salt pt passwords z w Hfair Hready)
      as (json & w' & Hconv & _); [lia|exact Hmax|].
    exists json, w'. exact Hconv.
Qed.

(** C9. Legacy is read-only: whatever the inputs, an envelope returned
    by [encryptWithPasswords] or by [encryptPlaintext] has [v = 2] and
    mode ['chacha20poly1305'], and [isLegacyFormat] is false of it. *)
Theorem encryption_never_legacy :
  forall (P : Platform) (fuel : nat) (w w' : world) (json : json_text P),
    (forall passwords m,
        encryptWithPasswords P fuel passwords m w = (Ok json, w') ->
        exists obj, json = JSON_stringify P obj
                    /\ Envelope.v obj = JNum 2
                    /\ Envelope.mode obj = JStr CHACHA20POLY1305
                    /\ isLegacyFormat obj = false)
    /\ (forall pt,
        encryptPlaintext P fuel pt w = (Ok json, w') ->
        exists obj, json = JSON_stringify P obj
                    /\ Envelope.v obj = JNum 2
                    /\ Envelope.mode obj = JStr CHACHA20POLY1305
                    /\ isLegacyFormat obj = false).
Proof.
  intros P fuel w w' json. split.
  - intros passwords m H.
    apply encryptWithPasswords_inv in H
      as (obj & ks & z & _ & _ & -> & Hv & Hm & _).
    exists obj. repeat split; auto.
    unfold isLegacyFormat. rewrite Hv, Hm. reflexivity.
  - intros pt H.
    apply encryptPlaintext_inv in H as (obj & ks & -> & Hv & Hm & _).
    exists obj. repeat split; auto.
    unfold isLegacyFormat. rewrite Hv, Hm. reflexivity.
Qed.

(** ** The threshold out of range *)

Lemma combinations_too_many passwords m :
  length passwords < m -> combinations passwords m = [].
Proof.
  intros H. unfold combinations. rewrite sublists_k_too_long; [reflexivity|].
  by rewrite js_sort_length, length_map.
Qed.

(** C4, amended: [encryptWithPasswords] does not validate [m].  With
    [m < 1] the enumeration throws a [TypeError] before any key is
    derived, any random byte drawn or anything sealed, and no envelope
    is produced.  With [m > passwords.length] nothing is rejected:
    [makeKeyCombinations] derives no key and returns the empty list,
    every envelope returned has an empty keys array, and (with libraries
    that keep their contract, on an engine that holds a salt and a
    plaintext) an envelope is returned. *)
Theorem encryptWithPasswords_range :
  forall (P : Platform) (passwords : list jsstring) (m : Z) (w : world),
    ((m < 1)%Z ->
       forall fuel, exists w',
         encryptWithPasswords P fuel passwords (Some m) w = (Throw TypeError, w')
         /\ trace w' = trace w /\ rng_pos w' = rng_pos w
         /\ _cipherobj (kb w') = _cipherobj (kb w))
    /\ ((Z.of_nat (length passwords) < m)%Z ->
        (exists w', makeKeyCombinations P passwords (Some m) w = (Ok [], w')
                    /\ trace w' = trace w)
        /\ (forall fuel json w',
              encryptWithPasswords P fuel passwords (Some m) w = (Ok json, w') ->
              exists obj, json = JSON_stringify P obj /\ Envelope.keys obj = Some [])
        /\ (Laws P -> fair_entropy P ->
            (exists salt plaintext, ready (kb w) salt plaintext) ->
            exists json w',
              converges (fun fuel => encryptWithPasswords P fuel passwords (Some m))
                        w json w')).
Proof.
  intros P passwords m w. split.
  - intros Hm fuel. eexists. rewrite encryptWithPasswords_unfold.
    rewrite (bind_throw _ _ _ _ _ (makeKeyCombinations_throws P passwords m w Hm)).
    repeat split; reflexivity.
  - intros Hm.
    assert (combinations passwords (Z.to_nat m) = []) as Hnone
        by (apply combinations_too_many; lia).
    assert (choose (length passwords) (Z.to_nat m) = 0) as Hzero
        by (apply choose_gt; lia).
    split; [|split].
    + eexists. split.
      * apply makeKeyCombinations_ok; [lia|]. rewrite Hnone. constructor.
      * cbn. rewrite Hnone. apply app_nil_r.
    + intros fuel json w' H.
      apply encryptWithPasswords_inv in H
        as (obj & ks & z & [= <-] & _ & -> & _ & _ & Hks & Hlen).
      exists obj. split; [reflexivity|].
      rewrite Hzero in Hlen. destruct ks; [exact Hks|discriminate].
    + intros L Hfair (salt & pt & Hready).
      destruct (encryptWithPasswords_returns P L salt pt passwords m w Hfair Hready)
        as (json & w' & Hconv & _); [lia|rewrite Hzero; lia|].
      exists json, w'. exact Hconv.
Qed.

(** ** Too few passwords at decryption *)

Lemma read_fields_run (fields : list jsstring) n : forall i acc w,
  i + n <= length fields ->
  for_push (fun i => match fields !! i with
                     | Some s => ret (normalizeString s)
                     | None => throw TypeError
                     end)
           (seq i n) acc w
  = (Ok (acc ++ map normalizeString (take n (drop i fields))), w).
Proof.
  induction n as [|n IH]; intros i acc w Hi.
  - simpl. unfold ret. rewrite app_nil_r. reflexivity.
  - assert (is_Some (fields !! i)) as [s Hs] by (apply lookup_lt_is_Some; lia).
    cbn [seq for_push]. rewrite Hs, bind_ret.
    rewrite IH by lia. rewrite (drop_S _ _ _ Hs). cbn [take map].
    rewrite <- app_assoc. reflexivity.
Qed.

Lemma decryptKeys_no_keys P w c :
  _keys (kb w) = [] -> _cipherobj (kb w) = Some c ->
  decryptKeys P w = (Ok false, w).
Proof.
  intros Hk Hc. unfold decryptKeys.
  assert (legacy_dispatch P w = (Ok (uses_legacy P c), w)) as Hd.
  { unfold legacy_dispatch, uses_legacy. destruct (sjcl_defined P); [|reflexivity].
    rewrite bind_get, Hc. reflexivity. }
  rewrite (bind_ok _ _ _ _ _ Hd).
  destruct (uses_legacy P c); [unfold decryptKeysLegacy|];
    rewrite bind_get, Hk; reflexivity.
Qed.

(** C5. Insufficient passwords: when the form holds fewer than M
    non-blank passwords, [kbp.decrypt] reports it (the alert 'You must
    enter at least M passcodes') and no decryption takes place: no key
    is derived and no wrapped key is tried.  The handler goes on to
    call [makeKeyCombinations] and [decryptKeys], which find nothing to
    do, raises the alert 'Could not decode key' and returns; master key
    and plaintext are as before. *)
Theorem insufficient_passwords :
  forall (P : Platform) (fuel : nat) (fields : list jsstring) (w : world)
         (c : cipherobj),
    _cipherobj (kb w) = Some c ->
    Z.to_nat (to_number (Envelope.nkeys c)) <= length fields ->
    (Z.of_nat (length (entered fields (Envelope.nkeys c)))
     < to_number (_nToUnlock (kb w)))%Z ->
    exists w',
      page_decrypt P fuel fields w = (Ok None, w')
      /\ extends w w' [EvAlert (AtLeastPasscodes (_nToUnlock (kb w)));
                       EvAlert CouldNotDecode]
      /\ crypto_events (trace w') = crypto_events (trace w)
      /\ _master (kb w') = _master (kb w)
      /\ _plaintext (kb w') = _plaintext (kb w).
Proof.
  intros P fuel fields w c Hc Hn Hfew.
  destruct (_nToUnlock (kb w)) as [z|] eqn:Hm;
    [change (to_number (Some z)) with z in Hfew
    |change (to_number None) with 0%Z in Hfew; lia].
  set (pw := entered fields (Envelope.nkeys c)) in *.
  assert (getMDecPass P fuel fields (Envelope.nkeys c) (Some z) w
          = (Ok pw, {| kb := kb w; rng_pos := rng_pos w;
                       trace := trace w ++ [EvAlert (AtLeastPasscodes (Some z))] |}))
    as Hget.
  { unfold getMDecPass.
    rewrite (bind_ok _ _ _ _ _
               (read_fields_run fields (Z.to_nat (to_number (Envelope.nkeys c)))
                                0 [] w Hn)).
    rewrite drop_0. cbn [app]. fold (entered fields (Envelope.nkeys c)). fold pw.
    replace (Z.of_nat (length pw) <? to_number (Some z))%Z with true
      by (symmetry; apply Z.ltb_lt; exact Hfew).
    reflexivity. }
  assert (combinations pw (Z.to_nat z) = []) as Hnone
      by (apply combinations_too_many; lia).
  eexists. split.
  - unfold page_decrypt. rewrite bind_get, Hc, Hm. unfold try_catch.
    rewrite (bind_ok _ _ _ _ _ Hget).
    erewrite bind_ok.
    2:{ apply (makeKeyCombinations_ok P pw z _ []); [lia|].
        rewrite Hnone. constructor. }
    erewrite bind_ok.
    2:{ apply (decryptKeys_no_keys P _ c); [reflexivity|exact Hc]. }
    cbn [negb]. rewrite bind_emit. reflexivity.
  - cbn [kb trace]. rewrite Hnone. cbn [map]. rewrite app_nil_r.
    unfold extends. rewrite <- !app_assoc. cbn [app].
    repeat split.
    unfold crypto_events. rewrite filter_app. cbn. apply app_nil_r.
Qed.

(** ** One combination at decryption *)

(** C7. Single target combination: for a non-empty list of exactly M
    normalized passwords, [makeCombinedPasswords] returns exactly one
    combination, their sorted space-joined string, and
    [makeKeyCombinations] runs exactly one key derivation, on that
    string, and returns at most that one key. *)
Theorem single_target_combination :
  forall (P : Platform) (passwords : list jsstring) (w : world),
    passwords <> [] ->
    Forall normalized passwords ->
    fst (makeCombinedPasswords passwords (Some (Z.of_nat (length passwords))) w)
    = Ok [join_space (js_sort passwords)]
    /\ extends w
         (snd (makeKeyCombinations P passwords (Some (Z.of_nat (length passwords))) w))
         [EvDerive (join_space (js_sort passwords))]
    /\ ensures (makeKeyCombinations P passwords (Some (Z.of_nat (length passwords)))) w
         (fun keys _ => length keys = 1).
Proof.
  intros P passwords w Hne Hnorm.
  assert (1 <= Z.of_nat (length passwords))%Z as Hz
      by (destruct passwords; [congruence | simpl; lia]).
  assert (combinations passwords (Z.to_nat (Z.of_nat (length passwords)))
          = [join_space (js_sort passwords)]) as Hone.
  { rewrite Nat2Z.id.
    destruct (supplied_combination passwords passwords) as [H _]; [reflexivity|].
    rewrite H, (normalized_map _ Hnorm). reflexivity. }
  split; [|split].
  - rewrite makeCombinedPasswords_ok by exact Hz. rewrite Hone. reflexivity.
  - destruct (derive P (kb w) (join_space (js_sort passwords))) as [key|] eqn:Hd.
    + rewrite (makeKeyCombinations_ok P passwords _ w [key] Hz)
        by (rewrite Hone; repeat constructor; exact Hd).
      unfold extends. cbn. rewrite Hone. reflexivity.
    + rewrite makeKeyCombinations_unfold, bind_modify.
      rewrite (bind_ok _ _ _ _ _ (makeCombinedPasswords_ok_run _ _ _ Hz)), Hone.
      unfold bind at 1. cbn [for_each]. unfold bind at 1, push_key at 1, bind at 1.
      rewrite makeKeyFromPassword_run. cbn [kb]. 
      replace (derive P _ (join_space (js_sort passwords))) with (@None jsdata)
        by (rewrite <- Hd; apply derive_ext; reflexivity).
      reflexivity.
  - apply ensures_intro. intros keys w' H.
    apply makeKeyCombinations_inv in H as (z & [= <-] & _ & Hder & _).
    rewrite Hone in Hder. apply Forall2_length in Hder. simpl in Hder. lia.
Qed.

(** ** The reference platform keeps the contract *)

Lemma Ref_seal_inv k n a p c :
  Ref.seal (U8 k) (U8 n) (U8 a) (U8 p) = Some c ->
  length k = 32 /\ length n = 12 /\ c = k ++ p.
Proof.
  unfold Ref.seal, Ref.is_len.
  destruct (Nat.eqb_spec (length k) 32), (Nat.eqb_spec (length n) 12);
    simpl; try discriminate.
  intros [= <-]. auto.
Qed.

Lemma Ref_open_inv k n a c p :
  Ref.open (U8 k) (U8 n) (U8 a) (U8 c) = Some p ->
  length k = 32 /\ take 32 c = k /\ p = drop 32 c.
Proof.
  unfold Ref.open, Ref.is_len.
  destruct (Nat.eqb_spec (length k) 32), (Nat.eqb_spec (length n) 12);
    simpl; try discriminate.
  case_bool_decide; [|discriminate]. intros [= <-]. auto.
Qed.

Lemma Ref_laws sjcl : Laws (Ref.platform sjcl).
Proof.
  constructor; cbn [pbkdf2_sha256 chacha20poly1305_encrypt chacha20poly1305_decrypt
                      btoa atob JSON_parse JSON_stringify Ref.platform].
  - intros password salt c Hc. unfold Ref.pbkdf2.
    destruct (Z.ltb_spec 0 c); [|lia]. eexists. split; [reflexivity|].
    rewrite length_take, length_app, repeat_length. lia.
  - intros key nonce pt Hk Hn. unfold Ref.seal, Ref.is_len.
    rewrite Hk, Hn. simpl. eauto.
  - intros key nonce pt c (Hk & Hn & ->)%Ref_seal_inv.
    unfold Ref.open, Ref.is_len. rewrite Hk, Hn. simpl.
    rewrite (take_app_length' key pt 32) by done.
    rewrite bool_decide_eq_true_2 by done.
    rewrite (drop_app_length' key pt 32) by done. reflexivity.
  - intros key key' nonce pt c p (Hk & Hn & ->)%Ref_seal_inv
           (Hk' & Ht & ->)%Ref_open_inv.
    by rewrite (drop_app_length' key pt 32).
  - intros b. eauto.
  - reflexivity.
Qed.

Lemma Ref_fair sjcl : fair_entropy (Ref.platform sjcl).
Proof.
  intros pos max Hmax. exists 0. cbn.
  assert (1 <= 4294967295 / Z.pos max)%Z
    by (apply Z.div_le_lower_bound; lia).
  nia.
Qed.

(** ** The statements on the run of test-e2e.mjs *)

Lemma round_trip_witness :
  exists envelope w',
    converges (fun fuel => build_envelope Ref.P fuel Ref.hello None None
                             [Ref.alpha; Ref.beta; Ref.gamma] (Some 2%Z))
              Ref.start envelope w'
    /\ forall wd, exists wd',
         open_envelope Ref.P envelope [Ref.beta; Ref.alpha] (Some 2%Z) wd
         = (Ok (Some (U8 Ref.hello)), wd').
Proof.
  apply (round_trip Ref.P Ref.hello None None
           [Ref.alpha; Ref.beta; Ref.gamma] [Ref.beta; Ref.alpha] 2 Ref.start).
  - apply Ref_laws.
  - apply Ref_fair.
  - vm_compute. reflexivity.
  - simpl. lia.
  - simpl. lia.
  - apply (bool_decide_unpack _). vm_compute. exact I.
  - reflexivity.
Defined.

Lemma wrapped_key_count_witness :
  (forall fuel json w',
      encryptWithPasswords Ref.P fuel [Ref.alpha; Ref.beta; Ref.gamma] (Some 2%Z)
        Ref.prepared = (Ok json, w') ->
      exists obj ks,
        json = JSON_stringify Ref.P obj
        /\ Envelope.keys obj = Some ks
        /\ length ks = 3)
  /\ length (default [] (Envelope.keys Ref.envelope)) = 3.
Proof.
  split; [|reflexivity].
  apply (wrapped_key_count Ref.P [Ref.alpha; Ref.beta; Ref.gamma] 2 Ref.prepared).
  simpl. lia.
Defined.

(** C4, as stated, fails: with one password and [m = 2] the call is not
    rejected; it returns an envelope, whose keys array is empty. *)
Lemma encryptWithPasswords_above_range :
  exists (json : wire) w',
    encryptWithPasswords Ref.P 0 [Ref.alpha] (Some 2%Z) Ref.prepared = (Ok json, w')
    /\ Envelope.keys json = Some [].
Proof. eexists _, _. split; vm_compute; reflexivity. Qed.

Lemma encryptWithPasswords_range_witness :
  (exists w',
      encryptWithPasswords Ref.P 0 [Ref.alpha] (Some 0%Z) Ref.prepared
      = (Throw TypeError, w')
      /\ trace w' = trace Ref.prepared /\ rng_pos w' = rng_pos Ref.prepared
      /\ _cipherobj (kb w') = _cipherobj (kb Ref.prepared))
  /\ (exists w',
        makeKeyCombinations Ref.P [Ref.alpha] (Some 2%Z) Ref.prepared = (Ok [], w')
        /\ trace w' = trace Ref.prepared).
Proof.
  split.
  - apply (proj1 (encryptWithPasswords_range Ref.P [Ref.alpha] 0 Ref.prepared)). lia.
  - apply (proj2 (encryptWithPasswords_range Ref.P [Ref.alpha] 2 Ref.prepared)).
    simpl. lia.
Defined.

Lemma insufficient_passwords_witness :
  exists w',
    page_decrypt Ref.P 0 Ref.form_one Ref.right_keys = (Ok None, w')
    /\ extends Ref.right_keys w'
         [EvAlert (AtLeastPasscodes (Some 2%Z)); EvAlert CouldNotDecode]
    /\ crypto_events (trace w') = crypto_events (trace Ref.right_keys)
    /\ _master (kb w') = _master (kb Ref.right_keys)
    /\ _plaintext (kb w') = _plaintext (kb Ref.right_keys).
Proof.
  apply (insufficient_passwords Ref.P 0 Ref.form_one Ref.right_keys Ref.loaded).
  - reflexivity.
  - vm_compute. lia.
  - vm_compute. reflexivity.
Defined.

Lemma decryptKeys_trial_loop_witness :
  exists b w', decryptKeys Ref.P Ref.right_keys = (Ok b, w').
Proof.
  destruct (decryptKeys_trial_loop Ref.P Ref.right_keys Ref.loaded Ref.loaded_entries
              eq_refl eq_refl) as (b & w' & H & _).
  exists b, w'. exact H.
Defined.

Lemma single_target_combination_witness :
  fst (makeCombinedPasswords [Ref.beta; Ref.alpha] (Some 2%Z) Ref.start)
  = Ok [lit "alpha beta"]
  /\ extends Ref.start
       (snd (makeKeyCombinations Ref.P [Ref.beta; Ref.alpha] (Some 2%Z) Ref.start))
       [EvDerive (lit "alpha beta")].
Proof.
  destruct (single_target_combination Ref.P [Ref.beta; Ref.alpha] Ref.start)
    as (H1 & H2 & _).
  - discriminate.
  - repeat constructor.
  - split; [exact H1 | exact H2].
Defined.

Lemma encryption_never_legacy_witness :
  exists obj,
    Ref.envelope = JSON_stringify Ref.P obj
    /\ Envelope.v obj = JNum 2
    /\ Envelope.mode obj = JStr CHACHA20POLY1305
    /\ isLegacyFormat obj = false.
Proof.
  apply (proj1 (encryption_never_legacy Ref.P 0 Ref.prepared
                  (snd (encryptWithPasswords Ref.P 0 [Ref.alpha; Ref.beta; Ref.gamma]
                          (Some 2%Z) Ref.prepared))
                  Ref.envelope)
               [Ref.alpha; Ref.beta; Ref.gamma] (Some 2%Z)).
  vm_compute. reflexivity.
Defined.

Lemma failed_trial_keeps_master_witness :
  _master (kb (snd (decryptKeys Ref.P Ref.wrong_keys))) = _master (kb Ref.wrong_keys)
  /\ _master (kb (snd (decryptKeysLegacy Ref.P Ref.wrong_keys)))
     = _master (kb Ref.wrong_keys).
Proof.
  split.
  - apply (proj1 (failed_trial_keeps_master Ref.P Ref.wrong_keys
                    (snd (decryptKeys Ref.P Ref.wrong_keys)))).
    vm_compute. reflexivity.
  - apply (proj2 (failed_trial_keeps_master Ref.P Ref.wrong_keys
                    (snd (decryptKeysLegacy Ref.P Ref.wrong_keys)))).
    vm_compute. reflexivity.
Defined.

(** * Further properties of the code *)

(** ** [normalizeString] *)

Lemma single_spaced_weaken s : single_spaced true s = true -> single_spaced false s = true.
Proof.
  destruct s as [|c r]; simpl; [done|].
  destruct (is_whitespace c); [|done].
  rewrite andb_false_r. discriminate.
Qed.

Lemma collapse_runs_single_spaced s : forall b,
  single_spaced b (collapse_runs b s) = true.
Proof.
  induction s as [|c r IH]; intros b; simpl; [done|].
  destruct (is_whitespace c) eqn:E.
  - destruct b; [apply IH|]. simpl. rewrite (IH true). reflexivity.
  - simpl. rewrite E. apply IH.
Qed.

Lemma collapse_runs_fixed s : forall b,
  single_spaced b s = true -> collapse_runs b s = s.
Proof.
  induction s as [|c r IH]; intros b; simpl; [done|].
  destruct (is_whitespace c) eqn:E.
  - intros [[Hc Hb%negb_true_iff]%andb_true_iff Hr]%andb_true_iff.
    apply N.eqb_eq in Hc. subst b c. f_equal. by apply IH.
  - intros Hr. f_equal. by apply IH.
Qed.

Lemma single_spaced_snoc s c : forall b,
  single_spaced b (s ++ [c]) = true -> single_spaced b s = true.
Proof.
  induction s as [|d r IH]; intros b; simpl; [done|].
  destruct (is_whitespace d).
  - intros [H Hr]%andb_true_iff. rewrite H. by apply IH.
  - apply IH.
Qed.

(** In a single-spaced string a trailing whitespace does not follow
    another one. *)
Lemma single_spaced_last2 s x y : forall b,
  single_spaced b (s ++ [x; y]) = true -> is_whitespace y = true ->
  is_whitespace x = false.
Proof.
  induction s as [|d r IH]; intros b; simpl.
  - destruct (is_whitespace x); [|done].
    intros [_ H]%andb_true_iff Hy. rewrite Hy in H.
    rewrite andb_false_r in H. discriminate.
  - destruct (is_whitespace d).
    + intros [_ Hr]%andb_true_iff. exact (IH true Hr).
    + exact (IH false).
Qed.

Lemma drop_leading_ws_spec s :
  single_spaced false s = true ->
  single_spaced false (drop_leading_ws s) = true
  /\ match drop_leading_ws s with c :: _ => is_whitespace c = false | [] => True end.
Proof.
  destruct s as [|c r]; simpl; [done|].
  destruct (is_whitespace c) eqn:E.
  - intros [_ Hr]%andb_true_iff. split; [by apply single_spaced_weaken|].
    destruct r as [|d r]; [done|]. simpl in Hr.
    destruct (is_whitespace d); [|done].
    rewrite andb_false_r in Hr. discriminate.
  - intros Hr. simpl. rewrite E. done.
Qed.

Lemma drop_trailing_ws_spec s :
  single_spaced false s = true ->
  match s with c :: _ => is_whitespace c = false | [] => True end ->
  single_spaced false (drop_trailing_ws s) = true
  /\ edges_clean (drop_trailing_ws s).
Proof.
  intros Hs Hfirst. unfold drop_trailing_ws, edges_clean.
  destruct s as [|x l] using rev_ind; [done|]. clear IHl.
  rewrite last_snoc. destruct (is_whitespace x) eqn:E.
  - rewrite removelast_last. split; [exact (single_spaced_snoc l x false Hs)|].
    destruct l as [|y l'] using rev_ind.
    + simpl in Hfirst. congruence.
    + clear IHl'. rewrite last_snoc. split.
      * destruct l'; simpl in *; exact Hfirst.
      * rewrite <- app_assoc in Hs. simpl in Hs.
        exact (single_spaced_last2 l' y x false Hs E).
  - rewrite last_snoc. done.
Qed.

Lemma strip_edges_fixed s : edges_clean s -> strip_edges s = s.
Proof.
  intros [H1 H2]. unfold strip_edges.
  assert (drop_leading_ws s = s) as ->
      by (destruct s; simpl in *; [done | by rewrite H1]).
  unfold drop_trailing_ws. destruct (last s); [by rewrite H2 | done].
Qed.

Lemma normalizeString_shape s :
  single_spaced false (normalizeString s) = true /\ edges_clean (normalizeString s).
Proof.
  unfold normalizeString, strip_edges.
  destruct (drop_leading_ws_spec _ (collapse_runs_single_spaced s false)) as [H1 H2].
  by apply drop_trailing_ws_spec.
Qed.

(** X1. Normalization is idempotent. *)
Theorem normalizeString_idempotent :
  forall s : jsstring, normalizeString (normalizeString s) = normalizeString s.
Proof.
  intros s. destruct (normalizeString_shape s) as [H1 H2].
  unfold normalizeString at 1.
  rewrite collapse_runs_fixed by exact H1. by apply strip_edges_fixed.
Qed.

Lemma single_spaced_lookup t : forall b i c,
  single_spaced b t = true -> t !! i = Some c -> is_whitespace c = true ->
  c = SPACE
  /\ (i = 0 -> b = false)
  /\ (forall j a, i = S j -> t !! j = Some a -> is_whitespace a = false)
  /\ (forall d, t !! S i = Some d -> is_whitespace d = false).
Proof.
  induction t as [|x t IH]; intros b i c Ht Hi Hc; [done|].
  simpl in Ht. destruct i as [|i]; simpl in Hi.
  - injection Hi as ->. rewrite Hc in Ht.
    apply andb_true_iff in Ht as [[Hx Hb]%andb_true_iff Hr].
    apply N.eqb_eq in Hx. apply negb_true_iff in Hb.
    repeat split; auto; [discriminate|].
    intros d Hd. simpl in Hd. destruct t as [|y t]; [done|].
    simpl in Hd. injection Hd as ->. simpl in Hr.
    destruct (is_whitespace d); [|done]. rewrite andb_false_r in Hr. discriminate.
  - assert (single_spaced (is_whitespace x) t = true) as Hr.
    { destruct (is_whitespace x); [|exact Ht].
      by apply andb_true_iff in Ht as [_ ?]. }
    destruct (IH _ i c Hr Hi Hc) as (H1 & H2 & H3 & H4).
    repeat split; auto; [discriminate|].
    intros j a [= <-] Ha. destruct i as [|i]; simpl in Ha.
    + injection Ha as ->. by apply H2.
    + by apply (H3 i a).
Qed.

(** X2. In a normalized string every whitespace code unit is a space
    that stands between two code units that are not whitespace. *)
Theorem normalizeString_whitespace :
  forall (s : jsstring) (i : nat) (c : N),
    normalizeString s !! i = Some c ->
    is_whitespace c = true ->
    c = SPACE
    /\ (exists j a, i = S j /\ normalizeString s !! j = Some a
                    /\ is_whitespace a = false)
    /\ (exists d, normalizeString s !! S i = Some d /\ is_whitespace d = false).
Proof.
  intros s i c Hi Hc.
  destruct (normalizeString_shape s) as [Hss [Hfirst Hlast]].
  destruct (single_spaced_lookup _ false i c Hss Hi Hc) as (H1 & _ & H3 & H4).
  split; [exact H1|]. split.
  - destruct i as [|j].
    + destruct (normalizeString s); [done|]. simpl in Hi. congruence.
    + assert (is_Some (normalizeString s !! j)) as [a Ha]
          by (apply lookup_lt_is_Some; apply lookup_lt_Some in Hi; lia).
      exists j, a. eauto.
  - destruct (normalizeString s !! S i) as [d|] eqn:Hd; [eauto|].
    exfalso. rewrite last_lookup in Hlast.
    apply lookup_ge_None in Hd. apply lookup_lt_Some in Hi as Hlt.
    replace (pred (length (normalizeString s))) with i in Hlast by lia.
    rewrite Hi in Hlast. congruence.
Qed.

Lemma normalizeString_whitespace_witness :
  normalizeString (lit "  alpha   beta ") = lit "alpha beta"
  /\ (exists d, normalizeString (lit "  alpha   beta ") !! 6 = Some d
                /\ is_whitespace d = false).
Proof.
  split; [vm_compute; reflexivity|].
  apply (normalizeString_whitespace (lit "  alpha   beta ") 5 SPACE);
    vm_compute; reflexivity.
Defined.

Lemma ink_collapse_runs s : forall b, ink (collapse_runs b s) = ink s.
Proof.
  unfold ink. induction s as [|c r IH]; intros b; simpl; [done|].
  destruct (is_whitespace c) eqn:E.
  - rewrite filter_cons_False by congruence.
    destruct b; [apply IH|]. rewrite filter_cons_False by done. apply IH.
  - rewrite !filter_cons_True by done. f_equal. apply IH.
Qed.

Lemma ink_drop_leading_ws s : ink (drop_leading_ws s) = ink s.
Proof.
  unfold ink. destruct s as [|c r]; simpl; [done|].
  destruct (is_whitespace c) eqn:E; [|done].
  by rewrite filter_cons_False by congruence.
Qed.

Lemma ink_drop_trailing_ws s : ink (drop_trailing_ws s) = ink s.
Proof.
  unfold ink, drop_trailing_ws.
  destruct s as [|x l] using rev_ind; [done|]. clear IHl.
  rewrite last_snoc. destruct (is_whitespace x) eqn:E; [|done].
  rewrite removelast_last, filter_app, filter_cons_False by congruence.
  by rewrite filter_nil, app_nil_r.
Qed.

(** X3. Normalization touches whitespace only: the other code units
    stay, in their order; and the result is empty exactly when the
    string holds nothing but whitespace (the test for a blank password
    on the page). *)
Theorem normalizeString_ink :
  forall s : jsstring,
    ink (normalizeString s) = ink s
    /\ (normalizeString s = [] <-> ink s = []).
Proof.
  intros s.
  assert (ink (normalizeString s) = ink s) as Hink.
  { unfold normalizeString, strip_edges.
    by rewrite ink_drop_trailing_ws, ink_drop_leading_ws, ink_collapse_runs. }
  split; [exact Hink|]. split.
  - intros H. by rewrite <- Hink, H.
  - intros H. rewrite <- Hink in H.
    destruct (normalizeString_shape s) as [_ [Hfirst _]].
    destruct (normalizeString s) as [|c r]; [done|].
    unfold ink in H. by rewrite filter_cons_True in H.
Qed.

(** X4. Passwords that differ in whitespace only (equal after
    normalization, one by one) give the same run of
    [makeCombinedPasswords]: the same combinations, hence the same
    keys. *)
Theorem makeCombinedPasswords_whitespace :
  forall (passwords passwords' : list jsstring) (m : option Z) (w : world),
    Forall2 (fun p q => normalizeString p = normalizeString q) passwords passwords' ->
    makeCombinedPasswords passwords m w = makeCombinedPasswords passwords' m w.
Proof.
  intros passwords passwords' m w H.
  rewrite !makeCombinedPasswords_run.
  rewrite (Forall2_length _ _ _ H).
  assert (map normalizeString passwords = map normalizeString passwords') as ->;
    [|reflexivity].
  induction H as [|p q l l' Hpq _ IH]; simpl; [done|]. by rewrite Hpq, IH.
Qed.

Lemma makeCombinedPasswords_whitespace_witness :
  makeCombinedPasswords [lit " foo  bar "; Ref.alpha] (Some 2%Z) Ref.start
  = makeCombinedPasswords [lit "foo bar"; lit "alpha  "] (Some 2%Z) Ref.start.
Proof.
  apply makeCombinedPasswords_whitespace.
  repeat constructor; vm_compute; reflexivity.
Defined.

(** ** [randomIntegers] and [shuffle] *)

Lemma uint32_le_nonneg b : (0 <= uint32_le b)%Z.
Proof.
  unfold uint32_le. induction b as [|x b IH]; simpl; [lia|].
  pose proof (N2Z.is_nonneg (Byte.to_N x)). lia.
Qed.

Lemma resample_nonneg P fuel mv : forall value w,
  (0 <= value)%Z ->
  ensures (resample P fuel mv value) w (fun v _ => (0 <= v)%Z).
Proof.
  induction fuel as [|fuel IH]; intros value w Hv; simpl;
    destruct (value >=? mv)%Z.
  - exact I.
  - unfold ensures, sat. simpl. exact Hv.
  - apply ensures_bind. apply ensures_intro. intros b w1 _.
    apply IH. apply uint32_le_nonneg.
  - unfold ensures, sat. simpl. exact Hv.
Qed.

Lemma for_push_Forall {A B} (body : A -> M B) (Q : B -> Prop) l :
  (forall a w, ensures (body a) w (fun b _ => Q b)) ->
  forall acc w, Forall Q acc ->
    ensures (for_push body l acc) w (fun r _ => Forall Q r).
Proof.
  intros Hb. induction l as [|a l IH]; intros acc w Hacc; simpl.
  - unfold ensures, sat. simpl. exact Hacc.
  - apply ensures_bind. eapply ensures_mono; [apply Hb|].
    intros b w1 Hq. apply IH. apply Forall_app. split; [exact Hacc|].
    by constructor.
Qed.

Lemma randomIntegers_below P fuel max count w :
  ensures (randomIntegers P fuel max count) w
    (fun r _ => length r = count /\ Forall (fun z => (0 <= z < Z.pos max)%Z) r).
Proof.
  apply ensures_intro. intros r w' H. split.
  - unfold randomIntegers in H.
    apply bind_ok_inv in H as (b & w1 & _ & H).
    apply for_push_length in H. rewrite length_seq in H. exact H.
  - revert H. apply (ensures_elim _ w (fun r _ => Forall _ r)).
    unfold randomIntegers. apply ensures_bind. apply ensures_intro.
    intros b w1 _. apply for_push_Forall; [|constructor].
    intros i w2. apply ensures_bind.
    eapply ensures_mono; [apply resample_nonneg, uint32_le_nonneg|].
    intros v w3 Hv. unfold ensures, sat. simpl.
    pose proof (Z.rem_bound_pos v (Z.pos max) Hv). lia.
Qed.

(** The swaps of the shuffle stay inside the array: at position [i] the
    index drawn is at most [i]. *)
Lemma shuffle_loop_in_range P fuel i w r w' :
  randto P fuel (Pos.of_succ_nat i) 1 w = (Ok r, w') ->
  Z.to_nat (hd 0%Z r) <= i.
Proof.
  intros H.
  destruct (ensures_elim _ _ _ _ _ (randomIntegers_below P fuel _ 1 w) H)
    as [Hlen Hall].
  destruct r as [|z r]; [discriminate|]. simpl.
  apply Forall_cons in Hall as [Hz _]. lia.
Qed.

(** X5. On fair entropy [randomIntegers(max, count)], for [max] up to
    [0xFFFFFFFF], ends and returns [count] integers of [[0, max)]; the
    engine's object is not touched. *)
Theorem randomIntegers_range :
  forall (P : Platform) (max : positive) (count : nat) (w : world),
    fair_entropy P ->
    (Z.pos max <= 4294967295)%Z ->
    returns_fuel (fun fuel => randomIntegers P fuel max count) w
      (fun r w' =>
         length r = count
         /\ Forall (fun z => (0 <= z < Z.pos max)%Z) r
         /\ kb w' = kb w).
Proof.
  intros P max count w Hfair Hmax.
  eapply returns_fuel_mono.
  - apply (returns_fuel_strengthen _ _ (fun _ _ => True)
             (fun r w' => (length r = count
                           /\ Forall (fun z => (0 <= z < Z.pos max)%Z) r)
                          /\ kb w' = kb w)).
    + by apply randomIntegers_converges.
    + intros fuel r w' H. split.
      * exact (ensures_elim _ _ _ _ _ (randomIntegers_below P fuel max count w) H).
      * exact (kb_stable_run _ _ _ _ (kb_stable_randomIntegers P fuel max count) H).
  - simpl. tauto.
Qed.

Lemma randomIntegers_range_witness :
  returns_fuel (fun fuel => randomIntegers Ref.P fuel 6 3) Ref.start
    (fun r w' =>
       length r = 3
       /\ Forall (fun z => (0 <= z < 6)%Z) r
       /\ kb w' = kb Ref.start).
Proof.
  apply (randomIntegers_range Ref.P 6 3 Ref.start); [apply Ref_fair | lia].
Defined.

(** X6. On fair entropy the Fisher-Yates shuffle ends and returns a
    rearrangement of its argument: nothing is lost, added or repeated;
    the engine's object is not touched. *)
Theorem shuffle_rearranges :
  forall (A : Type) (P : Platform) (arr : list A) (w : world),
    fair_entropy P ->
    (Z.of_nat (length arr) <= 4294967295)%Z ->
    returns_fuel (fun fuel => shuffle P fuel arr) w
      (fun r w' =>
         Permutation r arr
         /\ length r = length arr
         /\ (forall x, x ∈ r <-> x ∈ arr)
         /\ kb w' = kb w).
Proof.
  intros A P arr w Hfair Hlen.
  eapply returns_fuel_mono; [apply shuffle_converges; eassumption|].
  intros r w' [Hkb Hperm]. cbn beta.
  split; [exact Hperm|]. split; [by rewrite Hperm|].
  split; [|exact Hkb]. intros x. by rewrite Hperm.
Qed.

Lemma shuffle_rearranges_witness :
  returns_fuel (fun fuel => shuffle Ref.P fuel [Ref.alpha; Ref.beta; Ref.gamma])
    Ref.start
    (fun r w' =>
       Permutation r [Ref.alpha; Ref.beta; Ref.gamma]
       /\ length r = 3
       /\ (forall x, x ∈ r <-> x ∈ [Ref.alpha; Ref.beta; Ref.gamma])
       /\ kb w' = kb Ref.start).
Proof.
  apply (shuffle_rearranges _ Ref.P [Ref.alpha; Ref.beta; Ref.gamma] Ref.start);
    [apply Ref_fair | simpl; lia].
Defined.
